(** * Determinant bitsets, excitations and fermionic phases (arches)

    A shallow embedding of [determinant.cpp]: the phase computations, the
    excitation operators and the generators of singly and doubly excited
    determinants, together with the properties the specification states
    about them.

    The header [determinant.h] (the classes [spin_det_t], [det_t], the
    function [to_constraint] and the constraint typedefs) is not part of the
    sources at hand; these are modelled from the specification and marked as
    such.  Everything else follows the C++ text line by line. *)

From Stdlib Require Import ZArith List Bool Lia Arith Sorted.
Import ListNotations.

Local Open Scope Z_scope.

(* ================================================================== *)
(** * Machine integers *)
(* ================================================================== *)

(** [typedef long long int idx_t;] (matrix.h).  Orbital indices are far from
    the 64-bit limits, so they are plain integers here. *)
Definition idx_t := Z.

Definition INT_MAX : Z := 2147483647.

(** A value of C++ type [int]: two's-complement wrap-around to 32 bits. *)
Definition wrap_int (z : Z) : Z := (z + 2 ^ 31) mod 2 ^ 32 - 2 ^ 31.

(** Conversion to [size_t] (64-bit unsigned), as the usual arithmetic
    conversions do when an [int] meets a [size_t]. *)
Definition to_size_t (z : Z) : Z := z mod 2 ^ 64.

(** [i + 1] and [i++] on an [int]: defined up to [INT_MAX]; beyond it the
    addition overflows, which C++ leaves undefined ([None]). *)
Definition int_succ (i : Z) : option Z :=
  if i <? INT_MAX then Some (i + 1) else None.

(** What a run of a loop nest comes to: it returns a value, the fuel given to
    the model runs out first, or it reaches an operation C++ leaves
    undefined. *)
Inductive outcome (A : Type) : Type :=
| Returns (x : A)
| OutOfFuel
| Undefined.

Arguments Returns {A} x.
Arguments OutOfFuel {A}.
Arguments Undefined {A}.

(** Continue with the value of an [int] expression, if it has one. *)
Definition with_int {A : Type} (x : option Z) (k : Z -> outcome A) : outcome A :=
  match x with
  | Some v => k v
  | None => Undefined
  end.

(* ================================================================== *)
(** * Data model: spin determinants *)
(* ================================================================== *)

(** Modelled from the spec: class [spin_det_t] of determinant.h, "a fixed
    capacity bit vector": the capacity [N_mos] and the storage, held as one
    integer whose bit [i] is the occupation of orbital [i].  The storage may
    be wider than [N_mos] bits (spec 4.1), hence no bound on [bits] here;
    [wf] below is the data-model invariant. *)
Record spin_det_t : Type := mk_spin_det { N_mos : idx_t; bits : Z }.

(** Data-model invariant: every set bit lies in [[0, N_mos)]. *)
Definition wf (s : spin_det_t) : Prop :=
  0 <= N_mos s /\ 0 <= bits s < 2 ^ N_mos s.

Definition wfb (s : spin_det_t) : bool :=
  (0 <=? N_mos s) && (0 <=? bits s) && (bits s <? 2 ^ N_mos s).

(** Integer interval [[lo, hi]], both ends included, ascending. *)
Definition Zrange (lo hi : Z) : list Z :=
  map (fun k => lo + Z.of_nat k) (seq 0 (Z.to_nat (hi - lo + 1))).

(** Modelled from the spec: constructor [spin_det_t(N_mos)], empty. *)
Definition spin_det_empty (n : idx_t) : spin_det_t := mk_spin_det n 0.

(** Modelled from the spec: [get(i)], [operator[]]. *)
Definition get (s : spin_det_t) (i : idx_t) : bool := Z.testbit (bits s) i.

(** Modelled from the spec: [set(i, val)].  The original is a "fixed-width
    bitset without bounds checking" (spec 9): the bit is written wherever
    the index points. *)
Definition set_orb (s : spin_det_t) (i : idx_t) (val : bool) : spin_det_t :=
  mk_spin_det (N_mos s)
    (if val then Z.setbit (bits s) i else Z.clearbit (bits s) i).

(** Modelled from the spec: [set(lo, hi, val)], the range setter.  The phase
    computation calls it as [set(i + 1, j, 1)] and the spec (4.4) reads the
    result as the range [(i, j]], so both ends are included. *)
Definition set_range (s : spin_det_t) (lo hi : idx_t) (val : bool) : spin_det_t :=
  fold_left (fun acc k => set_orb acc k val) (Zrange lo hi) s.

(** Modelled from the spec: constructor [spin_det_t(N_mos, max_orb, fill)],
    "bits set for orbitals < max_orb". *)
Definition spin_det_fill (n max_orb : idx_t) (fill : bool) : spin_det_t :=
  set_range (spin_det_empty n) 0 (max_orb - 1) fill.

(** Modelled from the spec: constructor [spin_det_t(N_mos, N_filled, orbs)],
    from an explicit list of filled orbitals. *)
Definition spin_det_of_list (n : idx_t) (orbs : list idx_t) : spin_det_t :=
  fold_left (fun acc k => set_orb acc k true) orbs (spin_det_empty n).

(** Modelled from the spec: [operator~], masked to exactly [N_mos] bits. *)
Definition sd_not (s : spin_det_t) : spin_det_t :=
  mk_spin_det (N_mos s) (Z.land (Z.lnot (bits s)) (Z.ones (N_mos s))).

(** Modelled from the spec: [operator&] and [operator^]. *)
Definition sd_and (a b : spin_det_t) : spin_det_t :=
  mk_spin_det (N_mos a) (Z.land (bits a) (bits b)).

Definition sd_xor (a b : spin_det_t) : spin_det_t :=
  mk_spin_det (N_mos a) (Z.lxor (bits a) (bits b)).

Fixpoint popcount_pos (p : positive) : nat :=
  match p with
  | xH => 1%nat
  | xO q => popcount_pos q
  | xI q => S (popcount_pos q)
  end.

Definition popcount (z : Z) : nat :=
  match z with
  | Zpos p => popcount_pos p
  | _ => 0%nat
  end.

(** Modelled from the spec: [count()], the population count. *)
Definition count (s : spin_det_t) : Z := Z.of_nat (popcount (bits s)).

(** Modelled from the spec: [spin_constraint_t] is a sequence of orbital
    indices and [exc_constraint_t] the pair (hole-allow, particle-allow). *)
Definition spin_constraint_t := list idx_t.
Definition exc_constraint_t := (spin_constraint_t * spin_constraint_t)%type.

(** Modelled from the spec: [to_constraint], the orbitals of a bit set "in
    ascending bit-index order". *)
Definition to_constraint (s : spin_det_t) : spin_constraint_t :=
  filter (get s) (Zrange 0 (N_mos s - 1)).

(* ================================================================== *)
(** * Data model: determinants *)
(* ================================================================== *)

(** Modelled from the spec: class [det_t], the pair of the two channels. *)
Record det_t : Type := mk_det { alpha : spin_det_t; beta : spin_det_t }.

(** Modelled from the spec: [d[spin]], channel 0 is alpha and channel 1 is
    beta (as in [Dets_det_t_get_spin_det_handle]). *)
Definition channel (d : det_t) (spin : Z) : spin_det_t :=
  if spin =? 0 then alpha d else beta d.

(** The in-place update [d[spin] = s]. *)
Definition set_channel (d : det_t) (spin : Z) (s : spin_det_t) : det_t :=
  if spin =? 0 then mk_det s (beta d) else mk_det (alpha d) s.

Definition wf_det (d : det_t) : Prop :=
  wf (alpha d) /\ wf (beta d) /\ N_mos (alpha d) = N_mos (beta d).

(* ================================================================== *)
(** * Phases *)
(* ================================================================== *)

(** [compute_phase_single_excitation] *)
Definition compute_phase_single_excitation (d : spin_det_t) (h p : idx_t) : Z :=
  let i := Z.min h p in
  let j := Z.max h p in
  let hpmask := set_range (spin_det_empty (N_mos d)) (i + 1) j true in
  let parity := negb (Z.rem (count (sd_and hpmask d)) 2 =? 0) in
  if parity then -1 else 1.

(** [compute_phase_double_excitation(spin_det_t, ...)]: both excitations in
    one spin channel. *)
Definition compute_phase_double_excitation
    (d : spin_det_t) (h1 h2 p1 p2 : idx_t) : Z :=
  let phase :=
    compute_phase_single_excitation d h1 p1 *
    compute_phase_single_excitation d h2 p2 in
  let phase := if h2 <? p1 then phase * -1 else phase in
  let phase := if p2 <? h1 then phase * -1 else phase in
  phase.

(** [compute_phase_double_excitation(det_t, ...)]: one excitation in each
    channel. *)
Definition compute_phase_double_excitation_det
    (d : det_t) (h1 h2 p1 p2 : idx_t) : Z :=
  compute_phase_single_excitation (channel d 0) h1 p1 *
  compute_phase_single_excitation (channel d 1) h2 p2.

(* ================================================================== *)
(** * Excitation operators *)
(* ================================================================== *)

(** [exc_det] *)
Definition exc_det (a b : det_t) : det_t :=
  mk_det (sd_xor (channel a 0) (channel b 0))
         (sd_xor (channel a 1) (channel b 1)).

(** [apply_single_excitation(spin_det_t, h, p)] *)
Definition apply_single_excitation (s : spin_det_t) (h p : idx_t) : spin_det_t :=
  let s2 := s in
  let s2 := set_orb s2 h false in
  let s2 := set_orb s2 p true in
  s2.

(** [apply_single_excitation(det_t, spin, h, p)] *)
Definition apply_single_excitation_det
    (s : det_t) (spin : Z) (h p : idx_t) : det_t :=
  let s2 := s in
  let s2 := set_channel s2 spin (set_orb (channel s2 spin) h false) in
  let s2 := set_channel s2 spin (set_orb (channel s2 spin) p true) in
  s2.

(** [apply_double_excitation(spin_det_t, h1, h2, p1, p2)] *)
Definition apply_double_excitation
    (s : spin_det_t) (h1 h2 p1 p2 : idx_t) : spin_det_t :=
  let s2 := s in
  let s2 := set_orb s2 h1 false in
  let s2 := set_orb s2 h2 false in
  let s2 := set_orb s2 p1 true in
  let s2 := set_orb s2 p2 true in
  s2.

(** [apply_double_excitation(det_t, spin_1, spin_2, h1, h2, p1, p2)] *)
Definition apply_double_excitation_det
    (s : det_t) (spin_1 spin_2 : Z) (h1 h2 p1 p2 : idx_t) : det_t :=
  let s2 := s in
  let s2 := set_channel s2 spin_1 (set_orb (channel s2 spin_1) h1 false) in
  let s2 := set_channel s2 spin_2 (set_orb (channel s2 spin_2) h2 false) in
  let s2 := set_channel s2 spin_1 (set_orb (channel s2 spin_1) p1 true) in
  let s2 := set_channel s2 spin_2 (set_orb (channel s2 spin_2) p2 true) in
  s2.

(* ================================================================== *)
(** * Generators *)
(* ================================================================== *)

(** Modelled from the spec: the member [d.N_mos] of [det_t], the capacity
    shared by the two channels. *)
Definition det_N_mos (d : det_t) : idx_t := N_mos (alpha d).

(** [get_singles_by_exc_mask]: holes in the outer loop, particles in the
    inner one. *)
Definition get_singles_by_exc_mask
    (d : det_t) (spin : Z) (h p : spin_constraint_t) : list det_t :=
  flat_map (fun i => map (fun j => apply_single_excitation_det d spin i j) p) h.

(** [get_spin_singles_by_exc_mask] *)
Definition get_spin_singles_by_exc_mask
    (d : spin_det_t) (h p : spin_constraint_t) : list spin_det_t :=
  flat_map (fun i => map (fun j => apply_single_excitation d i j) p) h.

(** A [for] loop whose counter is an [int] that starts at [i] and is
    incremented by [i++]; [cond] is the loop test, [body] what one iteration
    appends to the result.  The loop tests of [get_ss_doubles_by_exc_mask]
    compare the counter with a [size_t], so the number of iterations is not
    bounded by the length of a list: the loop is run on fuel.  An increment
    at [INT_MAX] is a signed overflow: the run is [Undefined]. *)
Fixpoint for_loop {A : Type} (fuel : nat) (cond : Z -> bool)
    (body : Z -> outcome (list A)) (i : Z) : outcome (list A) :=
  match fuel with
  | O => OutOfFuel
  | S fuel' =>
      if cond i then
        match body i with
        | Returns xs =>
            with_int (int_succ i) (fun i' =>
              match for_loop fuel' cond body i' with
              | Returns ys => Returns (xs ++ ys)
              | stopped => stopped
              end)
        | stopped => stopped
        end
      else Returns []
  end.

(** [v[k]] on a [std::vector<idx_t>]. *)
Definition vec_at (v : spin_constraint_t) (k : Z) : idx_t :=
  nth (Z.to_nat k) v 0.

(** [v.size()] *)
Definition vec_size (v : spin_constraint_t) : Z := Z.of_nat (length v).

(** [get_ss_doubles_by_exc_mask]: the four nested loops, with [int] counters
    [h1, h2, p1, p2] compared against the [size_t] values [h.size() - 1],
    [h.size()], [p.size() - 1] and [p.size()]. *)
Definition get_ss_doubles_by_exc_mask (fuel : nat)
    (d : det_t) (spin : Z) (h p : spin_constraint_t) : outcome (list det_t) :=
  for_loop fuel (fun h1 => to_size_t h1 <? to_size_t (vec_size h - 1))
    (fun h1 =>
       with_int (int_succ h1) (fun h2_start =>
         for_loop fuel (fun h2 => to_size_t h2 <? vec_size h)
           (fun h2 =>
              for_loop fuel (fun p1 => to_size_t p1 <? to_size_t (vec_size p - 1))
                (fun p1 =>
                   with_int (int_succ p1) (fun p2_start =>
                     for_loop fuel (fun p2 => to_size_t p2 <? vec_size p)
                       (fun p2 =>
                          Returns [apply_double_excitation_det d spin spin
                                     (vec_at h h1) (vec_at h h2)
                                     (vec_at p p1) (vec_at p p2)])
                       p2_start))
                0)
           h2_start))
    0.

(** The mask expressions of the constrained generators, one definition per
    source expression.  [get_constrained_singles] and
    [get_constrained_os_doubles] write
    [(~d[s] & hole_mask) & max_orb_mask] and [(d[s] & part_mask) & max_orb_mask];
    [get_constrained_ss_doubles] writes
    [(d[s] & hole_mask) & max_orb_mask] and [(~d[s] & part_mask) & max_orb_mask]. *)
Definition singles_hole_bits (s hole_mask max_orb_mask : spin_det_t) : spin_det_t :=
  sd_and (sd_and (sd_not s) hole_mask) max_orb_mask.

Definition singles_part_bits (s part_mask max_orb_mask : spin_det_t) : spin_det_t :=
  sd_and (sd_and s part_mask) max_orb_mask.

Definition ss_doubles_hole_bits (s hole_mask max_orb_mask : spin_det_t) : spin_det_t :=
  sd_and (sd_and s hole_mask) max_orb_mask.

Definition ss_doubles_part_bits (s part_mask max_orb_mask : spin_det_t) : spin_det_t :=
  sd_and (sd_and (sd_not s) part_mask) max_orb_mask.

(** [get_constrained_singles] *)
Definition get_constrained_singles
    (d : det_t) (constraint : exc_constraint_t) (max_orb : idx_t) : list det_t :=
  let hole_mask := spin_det_of_list (det_N_mos d) (fst constraint) in
  let part_mask := spin_det_of_list (det_N_mos d) (snd constraint) in
  let max_orb_mask := spin_det_fill (det_N_mos d) max_orb true in
  let alpha_holes := to_constraint (singles_hole_bits (channel d 0) hole_mask max_orb_mask) in
  let alpha_parts := to_constraint (singles_part_bits (channel d 0) part_mask max_orb_mask) in
  let beta_holes := to_constraint (singles_hole_bits (channel d 1) hole_mask max_orb_mask) in
  let beta_parts := to_constraint (singles_part_bits (channel d 1) part_mask max_orb_mask) in
  let alpha_singles := get_singles_by_exc_mask d 0 alpha_holes alpha_parts in
  let beta_singles := get_singles_by_exc_mask d 1 beta_holes beta_parts in
  alpha_singles ++ beta_singles.

(** [get_all_singles] *)
Definition get_all_singles (d : det_t) : list det_t :=
  let alpha_singles :=
    get_singles_by_exc_mask d 0
      (to_constraint (channel d 0)) (to_constraint (sd_not (channel d 0))) in
  let beta_singles :=
    get_singles_by_exc_mask d 1
      (to_constraint (channel d 1)) (to_constraint (sd_not (channel d 1))) in
  alpha_singles ++ beta_singles.

(** [get_os_doubles] *)
Definition get_os_doubles (d : det_t) : list det_t :=
  let alpha_holes := to_constraint (channel d 0) in
  let alpha_parts := to_constraint (sd_not (channel d 0)) in
  let beta_holes := to_constraint (channel d 1) in
  let beta_parts := to_constraint (sd_not (channel d 1)) in
  let alpha_singles := get_spin_singles_by_exc_mask (channel d 0) alpha_holes alpha_parts in
  let beta_singles := get_spin_singles_by_exc_mask (channel d 1) beta_holes beta_parts in
  flat_map (fun a => map (fun b => mk_det a b) beta_singles) alpha_singles.

(** [get_constrained_os_doubles] *)
Definition get_constrained_os_doubles
    (d : det_t) (constraint : exc_constraint_t) (max_orb : idx_t) : list det_t :=
  let hole_mask := spin_det_of_list (det_N_mos d) (fst constraint) in
  let part_mask := spin_det_of_list (det_N_mos d) (snd constraint) in
  let max_orb_mask := spin_det_fill (det_N_mos d) max_orb true in
  let alpha_holes := to_constraint (singles_hole_bits (channel d 0) hole_mask max_orb_mask) in
  let alpha_parts := to_constraint (singles_part_bits (channel d 0) part_mask max_orb_mask) in
  let beta_holes := to_constraint (singles_hole_bits (channel d 1) hole_mask max_orb_mask) in
  let beta_parts := to_constraint (singles_part_bits (channel d 1) part_mask max_orb_mask) in
  let alpha_singles := get_spin_singles_by_exc_mask (channel d 0) alpha_holes alpha_parts in
  let beta_singles := get_spin_singles_by_exc_mask (channel d 1) beta_holes beta_parts in
  flat_map (fun a => map (fun b => mk_det a b) beta_singles) alpha_singles.

(** Sequencing of two generators, the first one first, followed by the
    [insert] of both results at the end of the output vector. *)
Definition append_results {A : Type} (x y : outcome (list A)) : outcome (list A) :=
  match x with
  | Returns xs =>
      match y with
      | Returns ys => Returns (xs ++ ys)
      | stopped => stopped
      end
  | stopped => stopped
  end.

(** [get_ss_doubles] *)
Definition get_ss_doubles (fuel : nat) (d : det_t) : outcome (list det_t) :=
  let alpha_holes := to_constraint (channel d 0) in
  let alpha_parts := to_constraint (sd_not (channel d 0)) in
  let beta_holes := to_constraint (channel d 1) in
  let beta_parts := to_constraint (sd_not (channel d 1)) in
  let alpha_ss_doubles := get_ss_doubles_by_exc_mask fuel d 0 alpha_holes alpha_parts in
  let beta_ss_doubles := get_ss_doubles_by_exc_mask fuel d 1 beta_holes beta_parts in
  append_results alpha_ss_doubles beta_ss_doubles.

(** [get_constrained_ss_doubles] *)
Definition get_constrained_ss_doubles (fuel : nat)
    (d : det_t) (constraint : exc_constraint_t) (max_orb : idx_t)
    : outcome (list det_t) :=
  let hole_mask := spin_det_of_list (det_N_mos d) (fst constraint) in
  let part_mask := spin_det_of_list (det_N_mos d) (snd constraint) in
  let max_orb_mask := spin_det_fill (det_N_mos d) max_orb true in
  let alpha_holes := to_constraint (ss_doubles_hole_bits (channel d 0) hole_mask max_orb_mask) in
  let alpha_parts := to_constraint (ss_doubles_part_bits (channel d 0) part_mask max_orb_mask) in
  let beta_holes := to_constraint (ss_doubles_hole_bits (channel d 1) hole_mask max_orb_mask) in
  let beta_parts := to_constraint (ss_doubles_part_bits (channel d 1) part_mask max_orb_mask) in
  let alpha_ss_doubles := get_ss_doubles_by_exc_mask fuel d 0 alpha_holes alpha_parts in
  let beta_ss_doubles := get_ss_doubles_by_exc_mask fuel d 1 beta_holes beta_parts in
  append_results alpha_ss_doubles beta_ss_doubles.

(** [get_all_connected_dets] *)
Definition get_all_connected_dets (fuel : nat) (d : det_t) : outcome (list det_t) :=
  let singles := get_all_singles d in
  match get_ss_doubles fuel d with
  | Returns ss_doubles =>
      let os_doubles := get_os_doubles d in
      Returns (singles ++ ss_doubles ++ os_doubles)
  | stopped => stopped
  end.

(** Binomial coefficients, by Pascal's rule. *)
Fixpoint binom (n k : nat) {struct n} : nat :=
  match k with
  | O => 1%nat
  | S k' =>
      match n with
      | O => 0%nat
      | S n' => (binom n' k' + binom n' k)%nat
      end
  end.

(** The determinant of the specification's concrete scenario: four orbitals,
    alpha occupied at 0 and 1, beta empty. *)
Definition scenario_alpha : spin_det_t := spin_det_of_list 4 [0; 1].
Definition scenario_det : det_t := mk_det scenario_alpha (spin_det_empty 4).

(** A determinant with electrons and vacancies in both channels: four
    orbitals, alpha occupied at 0 and 1, beta at 1 and 2. *)
Definition both_channels_det : det_t :=
  mk_det scenario_alpha (spin_det_of_list 4 [1; 2]).

(** Number of occupied orbitals of [d] with index in the range [(i, j]]. *)
Definition occupied_between (d : spin_det_t) (i j : idx_t) : Z :=
  Z.of_nat (length (filter (get d) (Zrange (i + 1) j))).

(** Two bit sets are disjoint: their bitwise AND is empty, and so no orbital
    index is listed for both. *)
Definition disjoint (a b : spin_det_t) : Prop :=
  bits (sd_and a b) = 0 /\
  forall i, In i (to_constraint a) -> In i (to_constraint b) -> False.

(** Occupied and unoccupied orbital counts of one channel, out of [N_mos]. *)
Definition occ (s : spin_det_t) : Z := count s.
Definition virt (s : spin_det_t) : Z := N_mos s - count s.

(** A channel with at least one electron and at least one vacancy. *)
Definition partly_filled (s : spin_det_t) : Prop := 0 < occ s /\ 0 < virt s.

(** The determinants [get_ss_doubles_by_exc_mask] emits, in order. *)
Definition ss_doubles_over (d : det_t) (spin : Z) (h p : spin_constraint_t)
    : list det_t :=
  flat_map (fun h1 =>
    flat_map (fun h2 =>
      flat_map (fun p1 =>
        flat_map (fun p2 =>
          [apply_double_excitation_det d spin spin
             (vec_at h h1) (vec_at h h2) (vec_at p p1) (vec_at p p2)])
          (Zrange (p1 + 1) (vec_size p - 1)))
        (Zrange 0 (vec_size p - 2)))
      (Zrange (h1 + 1) (vec_size h - 1)))
    (Zrange 0 (vec_size h - 2)).

(* ================================================================== *)
(** * Element-wise array operations *)
(* ================================================================== *)

Section LArrayOperations.

Context {T : Type}.

(** The arrays handed to the [*_LArray] functions are raw [T*] pointers:
    memory is a map from element addresses to values, a pointer is the
    address of its first element, and [p[i]] is the cell [p + i].  Nothing
    keeps two pointers from overlapping. *)
Definition memory := Z -> T.

Definition store (m : memory) (addr : Z) (v : T) : memory :=
  fun x => if x =? addr then v else m x.

(** A [for] loop over a state, with an [int] counter that starts at [i] and
    is incremented by [i++] (wrapping around as a two's-complement machine
    does); run on fuel, [None] when the fuel runs out. *)
Fixpoint for_loop_state {S : Type} (fuel : nat) (cond : Z -> bool)
    (body : Z -> S -> S) (i : Z) (s : S) : option S :=
  match fuel with
  | O => None
  | S fuel' =>
      if cond i then for_loop_state fuel' cond body (wrap_int (i + 1)) (body i s)
      else Some s
  end.

(** The loop shared by [add_LArray], [sub_LArray] and [mul_LArray] on two
    arrays: [for (auto i = 0; i < N; i++) c[i] = a[i] op b[i];].  The
    counter is an [int], converted to [idx_t] for the signed test [i < N]. *)
Definition zip_LArray (op : T -> T -> T) (fuel : nat)
    (a b c : Z) (N : idx_t) (m : memory) : option memory :=
  for_loop_state fuel (fun i => i <? N)
    (fun i m => store m (c + i) (op (m (a + i)) (m (b + i)))) 0 m.

(** The loop of the same functions with a constant second operand:
    [for (auto i = 0; i < N; i++) c[i] = a[i] op b;]. *)
Definition scalar_LArray (op : T -> T -> T) (fuel : nat)
    (a : Z) (b : T) (c : Z) (N : idx_t) (m : memory) : option memory :=
  for_loop_state fuel (fun i => i <? N)
    (fun i m => store m (c + i) (op (m (a + i)) b)) 0 m.

End LArrayOperations.

(* ================================================================== *)
(** * Bit counting *)
(* ================================================================== *)

Section BitCounting.

Lemma testbit_div2 a n :
  0 <= n -> Z.testbit (Z.div2 a) n = Z.testbit a (Z.succ n).
Proof. intros Hn. rewrite Z.div2_div. now apply Z.div2_bits. Qed.

Lemma popcount_div2 b :
  0 <= b ->
  popcount b = ((if Z.odd b then 1 else 0) + popcount (Z.div2 b))%nat.
Proof.
  intros Hb. destruct b as [|q|q]; [reflexivity| |lia].
  destruct q; reflexivity.
Qed.

Lemma setbit_nonneg b k : 0 <= b -> 0 <= Z.setbit b k.
Proof.
  intros Hb. apply Z.lor_nonneg. split; [exact Hb|].
  apply Z.shiftl_nonneg. lia.
Qed.

Lemma clearbit_nonneg b k : 0 <= b -> 0 <= Z.clearbit b k.
Proof. intros Hb. apply Z.ldiff_nonneg. now left. Qed.

(** A negative index selects no bit: the write is void. *)
Lemma setbit_neg_index b k : k < 0 -> Z.setbit b k = b.
Proof.
  intros Hk. rewrite Z.setbit_spec'.
  rewrite Z.pow_neg_r by exact Hk. apply Z.lor_0_r.
Qed.

Lemma clearbit_neg_index b k : k < 0 -> Z.clearbit b k = b.
Proof.
  intros Hk. rewrite Z.clearbit_spec'.
  rewrite Z.pow_neg_r by exact Hk. apply Z.ldiff_0_r.
Qed.

Lemma div2_setbit_succ b k :
  0 <= k -> Z.div2 (Z.setbit b (Z.succ k)) = Z.setbit (Z.div2 b) k.
Proof.
  intros Hk. apply Z.bits_inj'. intros n Hn.
  rewrite testbit_div2 by lia.
  rewrite !Z.setbit_eqb by lia.
  rewrite testbit_div2 by lia.
  f_equal.
  destruct (Z.eqb_spec (Z.succ k) (Z.succ n)), (Z.eqb_spec k n);
    try reflexivity; lia.
Qed.

Lemma div2_setbit_0 b : Z.div2 (Z.setbit b 0) = Z.div2 b.
Proof.
  apply Z.bits_inj'. intros n Hn.
  rewrite !testbit_div2 by lia.
  now rewrite Z.setbit_neq by lia.
Qed.

(** Setting a bit that was clear adds one to the population count. *)
Lemma popcount_setbit k :
  0 <= k ->
  forall b, 0 <= b -> Z.testbit b k = false ->
  popcount (Z.setbit b k) = S (popcount b).
Proof.
  intros Hk. pattern k. apply natlike_ind; [| |exact Hk]; clear k Hk.
  - intros b Hb Hbit.
    rewrite (popcount_div2 (Z.setbit b 0)) by now apply setbit_nonneg.
    rewrite (popcount_div2 b) by exact Hb.
    rewrite <- !Z.bit0_odd. rewrite Z.setbit_eq by lia. rewrite Hbit.
    now rewrite div2_setbit_0.
  - intros k Hk IH b Hb Hbit.
    rewrite (popcount_div2 (Z.setbit b (Z.succ k))) by now apply setbit_nonneg.
    rewrite (popcount_div2 b) by exact Hb.
    rewrite <- !Z.bit0_odd. rewrite Z.setbit_neq by lia.
    rewrite div2_setbit_succ by lia.
    rewrite IH.
    + now rewrite Nat.add_succ_r.
    + now apply Z.div2_nonneg.
    + now rewrite testbit_div2 by lia.
Qed.

Lemma setbit_clearbit_same b k :
  Z.testbit b k = true -> Z.setbit (Z.clearbit b k) k = b.
Proof.
  intros Hbit.
  assert (Hk : 0 <= k).
  { destruct (Z.neg_nonneg_cases k) as [Hneg|]; [|assumption].
    rewrite Z.testbit_neg_r in Hbit by exact Hneg. discriminate. }
  apply Z.bits_inj'. intros n Hn.
  rewrite Z.setbit_eqb by exact Hk. rewrite Z.clearbit_eqb.
  destruct (Z.eqb_spec k n) as [->|Hne]; simpl.
  - now rewrite Hbit.
  - now rewrite andb_true_r.
Qed.

(** Clearing a bit that was set removes one from the population count. *)
Lemma popcount_clearbit b k :
  0 <= b -> Z.testbit b k = true ->
  S (popcount (Z.clearbit b k)) = popcount b.
Proof.
  intros Hb Hbit.
  assert (Hk : 0 <= k).
  { destruct (Z.neg_nonneg_cases k) as [Hneg|]; [|assumption].
    rewrite Z.testbit_neg_r in Hbit by exact Hneg. discriminate. }
  rewrite <- (popcount_setbit k Hk (Z.clearbit b k)).
  - now rewrite setbit_clearbit_same.
  - now apply clearbit_nonneg.
  - apply Z.clearbit_eq.
Qed.

End BitCounting.

(* ================================================================== *)
(** * Ranges and masks *)
(* ================================================================== *)

Section Masks.

Lemma In_Zrange lo hi k : In k (Zrange lo hi) <-> lo <= k <= hi.
Proof.
  unfold Zrange. rewrite in_map_iff. split.
  - intros [n [<- Hn]]. apply in_seq in Hn. lia.
  - intros Hk. exists (Z.to_nat (k - lo)). split; [lia|].
    apply in_seq. lia.
Qed.

Lemma NoDup_Zrange lo hi : NoDup (Zrange lo hi).
Proof.
  unfold Zrange. apply NoDup_map_NoDup_ForallPairs.
  - intros x y _ _ Hxy. lia.
  - apply seq_NoDup.
Qed.

Lemma length_Zrange lo hi : length (Zrange lo hi) = Z.to_nat (hi - lo + 1).
Proof. unfold Zrange. now rewrite length_map, length_seq. Qed.

Lemma Zrange_snoc lo hi :
  lo <= hi -> Zrange lo hi = Zrange lo (hi - 1) ++ [hi].
Proof.
  intros H. unfold Zrange.
  replace (Z.to_nat (hi - lo + 1)) with (S (Z.to_nat (hi - 1 - lo + 1))) by lia.
  rewrite seq_S, map_app. simpl. do 2 f_equal. lia.
Qed.

(** The bits written by a sequence of [set(k, 1)] calls. *)
Lemma bits_fold_set_true l : forall s,
  bits (fold_left (fun acc k => set_orb acc k true) l s)
  = fold_left Z.setbit l (bits s).
Proof. induction l as [|k l IH]; intros s; simpl; [reflexivity|apply IH]. Qed.

Lemma N_mos_fold_set l val : forall s,
  N_mos (fold_left (fun acc k => set_orb acc k val) l s) = N_mos s.
Proof.
  induction l as [|k l IH]; intros s; simpl; [reflexivity|].
  now rewrite IH.
Qed.

(** Bit [n] of a mask built by setting the bits listed in [l]. *)
Lemma testbit_fold_setbit l : forall m n,
  0 <= n ->
  Z.testbit (fold_left Z.setbit l m) n
  = Z.testbit m n || existsb (Z.eqb n) l.
Proof.
  induction l as [|k l IH]; intros m n Hn; simpl.
  - now rewrite orb_false_r.
  - rewrite IH by exact Hn.
    destruct (Z.neg_nonneg_cases k) as [Hneg|Hk].
    + rewrite setbit_neg_index by exact Hneg.
      destruct (Z.eqb_spec n k); [lia|reflexivity].
    + rewrite Z.setbit_eqb by exact Hk. rewrite (Z.eqb_sym k n).
      now rewrite orb_assoc, (orb_comm (n =? k)).
Qed.

Lemma land_setbit_l m d k :
  0 <= k ->
  Z.land (Z.setbit m k) d
  = if Z.testbit d k then Z.setbit (Z.land m d) k else Z.land m d.
Proof.
  intros Hk. apply Z.bits_inj'. intros n Hn.
  destruct (Z.testbit d k) eqn:Hd.
  - rewrite Z.land_spec, !Z.setbit_eqb, Z.land_spec by exact Hk.
    destruct (Z.eqb_spec k n) as [->|Hne]; simpl; [now rewrite Hd|reflexivity].
  - rewrite !Z.land_spec, Z.setbit_eqb by exact Hk.
    destruct (Z.eqb_spec k n) as [->|Hne]; simpl; [|reflexivity].
    now rewrite Hd, andb_false_r.
Qed.

(** The population count of a determinant under a mask built bit by bit:
    one more for every listed position that is occupied. *)
Lemma popcount_land_setbits l :
  NoDup l ->
  forall m d,
  0 <= m -> 0 <= d ->
  (forall k, In k l -> Z.testbit m k = false) ->
  popcount (Z.land (fold_left Z.setbit l m) d)
  = (popcount (Z.land m d) + length (filter (Z.testbit d) l))%nat.
Proof.
  induction 1 as [|k l Hnotin Hnodup IH]; intros m d Hm Hd Hclear; simpl.
  - now rewrite Nat.add_0_r.
  - rewrite IH; [|now apply setbit_nonneg|exact Hd|].
    + destruct (Z.neg_nonneg_cases k) as [Hneg|Hk].
      * rewrite setbit_neg_index by exact Hneg.
        now rewrite (Z.testbit_neg_r d k) by exact Hneg.
      * rewrite land_setbit_l by exact Hk.
        destruct (Z.testbit d k) eqn:Hdk; simpl; [|reflexivity].
        rewrite popcount_setbit; [lia|exact Hk| |].
        -- apply Z.land_nonneg. now left.
        -- rewrite Z.land_spec, Hclear by now left. reflexivity.
    + intros k' Hin.
      destruct (Z.neg_nonneg_cases k) as [Hneg|Hk].
      * rewrite setbit_neg_index by exact Hneg. apply Hclear. now right.
      * rewrite Z.setbit_neq; [apply Hclear; now right|exact Hk|].
        intros ->. contradiction.
Qed.

Lemma existsb_eqb_Zrange lo hi n :
  existsb (Z.eqb n) (Zrange lo hi) = (lo <=? n) && (n <=? hi).
Proof.
  apply eq_true_iff_eq. rewrite existsb_exists, andb_true_iff, !Z.leb_le.
  split.
  - intros [k [Hin Heq]]. apply Z.eqb_eq in Heq. subst k.
    now apply In_Zrange in Hin.
  - intros H. exists n. split; [now apply In_Zrange|apply Z.eqb_refl].
Qed.

(** A well-formed bit set is untouched by the mask of its whole range. *)
Lemma land_full_range n b :
  0 <= n -> 0 <= b < 2 ^ n ->
  Z.land (fold_left Z.setbit (Zrange 0 (n - 1)) 0) b = b.
Proof.
  intros Hn Hb. apply Z.bits_inj'. intros k Hk.
  rewrite Z.land_spec, testbit_fold_setbit by exact Hk.
  rewrite Z.bits_0, existsb_eqb_Zrange. simpl.
  destruct (Z.leb_spec 0 k); [|lia].
  destruct (Z.leb_spec k (n - 1)); simpl; [reflexivity|].
  symmetry. rewrite <- (Z.mod_small b (2 ^ n)) by exact Hb.
  apply Z.mod_pow2_bits_high. lia.
Qed.

(** For a well-formed bit set, [count] is the number of listed orbitals. *)
Lemma length_to_constraint s :
  wf s -> Z.of_nat (length (to_constraint s)) = count s.
Proof.
  intros [Hn Hb]. unfold to_constraint, count. f_equal.
  rewrite <- (land_full_range (N_mos s) (bits s) Hn Hb) at 1.
  rewrite popcount_land_setbits.
  - reflexivity.
  - apply NoDup_Zrange.
  - lia.
  - lia.
  - intros k _. apply Z.bits_0.
Qed.

Lemma In_to_constraint s i :
  In i (to_constraint s) <-> 0 <= i < N_mos s /\ get s i = true.
Proof.
  unfold to_constraint. rewrite filter_In, In_Zrange. intuition lia.
Qed.

Lemma wf_sd_not s : 0 <= N_mos s -> wf (sd_not s).
Proof.
  intros Hn. split; [exact Hn|]. simpl.
  rewrite Z.land_ones by exact Hn. apply Z.mod_pos_bound.
  now apply Z.pow_pos_nonneg.
Qed.

Lemma get_sd_not s i :
  0 <= i < N_mos s -> get (sd_not s) i = negb (get s i).
Proof.
  intros Hi. unfold get, sd_not. simpl.
  rewrite Z.land_spec, Z.lnot_spec by lia.
  rewrite Z.testbit_ones_nonneg by lia.
  destruct (Z.ltb_spec i (N_mos s)); [apply andb_true_r|lia].
Qed.

(** The complement lists exactly the orbitals the bit set does not. *)
Lemma length_to_constraint_not s :
  wf s -> Z.of_nat (length (to_constraint (sd_not s))) = N_mos s - count s.
Proof.
  intros Hwf. rewrite <- (length_to_constraint s Hwf).
  destruct Hwf as [Hn _].
  pose proof (filter_length (get s) (Zrange 0 (N_mos s - 1))) as Hlen.
  rewrite length_Zrange in Hlen.
  unfold to_constraint at 1. simpl N_mos.
  rewrite (filter_ext_in (get (sd_not s)) (fun x => negb (get s x))).
  - unfold to_constraint. lia.
  - intros i Hi. apply In_Zrange in Hi. apply get_sd_not. lia.
Qed.

End Masks.

(* ================================================================== *)
(** * Phases *)
(* ================================================================== *)

Section PhaseProperties.

Lemma wfb_wf s : wfb s = true -> wf s.
Proof.
  unfold wfb, wf. rewrite !andb_true_iff, !Z.leb_le, Z.ltb_lt. tauto.
Qed.

Lemma wf_scenario_alpha : wf scenario_alpha.
Proof. apply wfb_wf. reflexivity. Qed.

Lemma wf_scenario_det : wf_det scenario_det.
Proof. repeat split; try (apply wfb_wf; reflexivity). Qed.

(** The C++ test [count % 2], read as a [bool], is the oddness of the count. *)
Lemma rem2_odd a : 0 <= a -> negb (Z.rem a 2 =? 0) = Z.odd a.
Proof.
  intros Ha. rewrite Z.rem_mod_nonneg by lia. rewrite Zmod_odd.
  now destruct (Z.odd a).
Qed.

(** What [(hpmask & d).count()] counts. *)
Lemma count_range_mask d lo hi :
  0 <= bits d ->
  count (sd_and (set_range (spin_det_empty (N_mos d)) lo hi true) d)
  = Z.of_nat (length (filter (get d) (Zrange lo hi))).
Proof.
  intros Hd. unfold count, sd_and, set_range. simpl bits.
  rewrite bits_fold_set_true. simpl bits.
  rewrite popcount_land_setbits.
  - reflexivity.
  - apply NoDup_Zrange.
  - lia.
  - exact Hd.
  - intros k _. apply Z.bits_0.
Qed.

(** C2.  The phase of a single excitation [(h, p)] is [-1] when the number of
    occupied orbitals of the determinant (before the excitation) in the range
    [(min h p, max h p]] is odd and [+1] when it is even; for alpha occupied
    at 0 and 1 among four orbitals the phase of (0 -> 2) is [-1] and the
    phase of (1 -> 3) is [+1]. *)
Theorem phase_single_excitation_parity :
  (forall d h p,
     wf d ->
     compute_phase_single_excitation d h p
     = if Z.odd (occupied_between d (Z.min h p) (Z.max h p)) then -1 else 1)
  /\ compute_phase_single_excitation scenario_alpha 0 2 = -1
  /\ compute_phase_single_excitation scenario_alpha 1 3 = 1.
Proof.
  split; [|split; reflexivity].
  intros d h p [_ [Hd _]].
  unfold compute_phase_single_excitation, occupied_between.
  rewrite count_range_mask by exact Hd.
  rewrite rem2_odd by lia. reflexivity.
Qed.

Lemma phase_single_excitation_parity_witness :
  wf scenario_alpha /\
  compute_phase_single_excitation scenario_alpha 0 2
  = if Z.odd (occupied_between scenario_alpha (Z.min 0 2) (Z.max 0 2))
    then -1 else 1.
Proof.
  split.
  - unfold wf; simpl; lia.
  - apply (proj1 phase_single_excitation_parity scenario_alpha 0 2).
    unfold wf; simpl; lia.
Defined.

(** When the upper end of the range is an unoccupied orbital, as it is for
    an excitation with [h < p], it does not contribute: the count over
    [(i, j]] is the count over the orbitals strictly between [i] and [j]. *)
Lemma occupied_between_unoccupied_end d i j :
  i < j -> get d j = false ->
  occupied_between d i j = occupied_between d i (j - 1).
Proof.
  intros Hij Hj. unfold occupied_between.
  rewrite (Zrange_snoc (i + 1) j) by lia.
  rewrite filter_app. simpl. rewrite Hj. now rewrite app_nil_r.
Qed.

Lemma phase_single_is_sign d h p :
  compute_phase_single_excitation d h p = 1 \/
  compute_phase_single_excitation d h p = -1.
Proof.
  unfold compute_phase_single_excitation.
  destruct (negb _); [now right|now left].
Qed.

(** C7.  The phase of a same-spin double excitation [(h1, h2, p1, p2)] is the
    product of the two single-excitation phases, each taken on the original
    determinant, with one sign flip when [h2 < p1] and another, independent
    one when [p2 < h1]. *)
Theorem phase_double_excitation_product d h1 h2 p1 p2 :
  compute_phase_double_excitation d h1 h2 p1 p2
  = compute_phase_single_excitation d h1 p1
    * compute_phase_single_excitation d h2 p2
    * (if h2 <? p1 then -1 else 1)
    * (if p2 <? h1 then -1 else 1).
Proof.
  unfold compute_phase_double_excitation.
  destruct (h2 <? p1), (p2 <? h1); ring.
Qed.

End PhaseProperties.

(* ================================================================== *)
(** * Excitation operators *)
(* ================================================================== *)

Section ExcitationProperties.

Lemma occupied_nonneg s h : get s h = true -> 0 <= h.
Proof.
  unfold get. intros Hbit.
  destruct (Z.neg_nonneg_cases h) as [Hneg|]; [|assumption].
  rewrite Z.testbit_neg_r in Hbit by exact Hneg. discriminate.
Qed.

(** C8.  Applying a single excitation [(h, p)], with [h] occupied and [p]
    unoccupied, to a valid spin determinant leaves the population count
    unchanged. *)
Theorem apply_single_excitation_count s h p :
  wf s ->
  0 <= p < N_mos s ->
  get s h = true ->
  get s p = false ->
  count (apply_single_excitation s h p) = count s.
Proof.
  intros [_ [Hb _]] Hp Hh Hpfree.
  unfold count, apply_single_excitation, set_orb, get in *. simpl.
  f_equal.
  assert (Hne : h <> p) by (intros ->; congruence).
  rewrite popcount_setbit.
  - now apply popcount_clearbit.
  - lia.
  - now apply clearbit_nonneg.
  - rewrite Z.clearbit_neq by exact Hne. exact Hpfree.
Qed.

Lemma apply_single_excitation_count_witness :
  count (apply_single_excitation scenario_alpha 1 3) = count scenario_alpha.
Proof.
  apply (apply_single_excitation_count scenario_alpha 1 3).
  - unfold wf; simpl; lia.
  - simpl; lia.
  - reflexivity.
  - reflexivity.
Defined.

Lemma bits_xor_single b h p :
  0 <= p -> Z.testbit b h = true -> Z.testbit b p = false ->
  Z.lxor b (Z.setbit (Z.clearbit b h) p) = Z.setbit (Z.setbit 0 h) p.
Proof.
  intros Hp Hh Hpfree.
  assert (Hh0 : 0 <= h) by (apply (occupied_nonneg (mk_spin_det 0 b)); exact Hh).
  apply Z.bits_inj'. intros n Hn.
  rewrite Z.lxor_spec, !Z.setbit_eqb, Z.clearbit_eqb, Z.bits_0 by lia.
  destruct (Z.eqb_spec p n) as [->|Hpn]; simpl.
  - now rewrite Hpfree.
  - destruct (Z.eqb_spec h n) as [->|Hhn]; simpl.
    + now rewrite Hh.
    + rewrite andb_true_r. apply xorb_nilpotent.
Qed.

(** C9.  For a single excitation [(h, p)] in channel [spin], with [h]
    occupied and [p] unoccupied, the difference [exc_det] between the
    determinant and the excited one has exactly two set bits in the excited
    channel, at positions [h] and [p], and none in the other channel. *)
Theorem exc_det_apply_single_excitation d spin h p :
  wf_det d ->
  spin = 0 \/ spin = 1 ->
  0 <= p < det_N_mos d ->
  get (channel d spin) h = true ->
  get (channel d spin) p = false ->
  let e := exc_det d (apply_single_excitation_det d spin h p) in
  (forall i, get (channel e spin) i = (i =? h) || (i =? p))
  /\ count (channel e spin) = 2
  /\ bits (channel e (1 - spin)) = 0.
Proof.
  intros _ Hspin Hp Hh Hpfree e.
  assert (Hh0 : 0 <= h) by (eapply occupied_nonneg; exact Hh).
  assert (Hne : h <> p) by (intros ->; congruence).
  assert (Hbits : bits (channel e spin) = Z.setbit (Z.setbit 0 h) p).
  { destruct Hspin as [-> | ->]; simpl in *;
      apply bits_xor_single; solve [lia | assumption]. }
  split; [|split].
  - intros i. unfold get. rewrite Hbits.
    destruct (Z.neg_nonneg_cases i) as [Hneg|Hi].
    + rewrite Z.testbit_neg_r by exact Hneg.
      destruct (Z.eqb_spec i h), (Z.eqb_spec i p); try reflexivity; lia.
    + rewrite !Z.setbit_eqb, Z.bits_0 by lia.
      rewrite orb_false_r, (Z.eqb_sym p i), (Z.eqb_sym h i). apply orb_comm.
  - unfold count. rewrite Hbits.
    rewrite (popcount_setbit p);
      [|lia|apply setbit_nonneg; lia
       |rewrite Z.setbit_neq, Z.bits_0 by lia; reflexivity].
    rewrite (popcount_setbit h); [reflexivity|lia|lia|apply Z.bits_0].
  - destruct Hspin as [-> | ->]; simpl; apply Z.lxor_nilpotent.
Qed.

Lemma exc_det_apply_single_excitation_witness :
  let e := exc_det scenario_det (apply_single_excitation_det scenario_det 0 1 3) in
  (forall i, get (channel e 0) i = (i =? 1) || (i =? 3))
  /\ count (channel e 0) = 2
  /\ bits (channel e (1 - 0)) = 0.
Proof.
  apply (exc_det_apply_single_excitation scenario_det 0 1 3).
  - unfold wf_det, wf; simpl; lia.
  - left; reflexivity.
  - vm_compute; split; [discriminate|reflexivity].
  - reflexivity.
  - reflexivity.
Defined.

(** C10.  A single excitation [(h, p)], with [h] occupied and [p] unoccupied,
    is undone by the reverse excitation [(p, h)]. *)
Theorem apply_single_excitation_reverse s h p :
  get s h = true ->
  get s p = false ->
  apply_single_excitation (apply_single_excitation s h p) p h = s.
Proof.
  intros Hh Hpfree. destruct s as [n b].
  unfold apply_single_excitation, set_orb, get in *. simpl in *. f_equal.
  assert (Hh0 : 0 <= h) by (apply (occupied_nonneg (mk_spin_det 0 b)); exact Hh).
  destruct (Z.neg_nonneg_cases p) as [Hneg|Hp].
  - rewrite (setbit_neg_index _ p), (clearbit_neg_index _ p) by exact Hneg.
    now apply setbit_clearbit_same.
  - apply Z.bits_inj'. intros k Hk.
    rewrite Z.setbit_eqb, Z.clearbit_eqb, Z.setbit_eqb, Z.clearbit_eqb by lia.
    destruct (Z.eqb_spec h k) as [->|Hhk]; simpl; [now rewrite Hh|].
    destruct (Z.eqb_spec p k) as [->|Hpk]; simpl; [now rewrite Hpfree|].
    now rewrite !andb_true_r.
Qed.

Lemma apply_single_excitation_reverse_witness :
  apply_single_excitation (apply_single_excitation scenario_alpha 1 3) 3 1
  = scenario_alpha.
Proof.
  apply (apply_single_excitation_reverse scenario_alpha 1 3); reflexivity.
Defined.

End ExcitationProperties.

(* ================================================================== *)
(** * Excitations inside the capacity *)
(* ================================================================== *)

Section InRangeExcitation.

Lemma high_bits_clear n x k :
  0 <= x < 2 ^ n -> n <= k -> Z.testbit x k = false.
Proof.
  intros Hx Hk.
  destruct (Z.neg_nonneg_cases n) as [Hneg|Hn].
  - rewrite Z.pow_neg_r in Hx by exact Hneg. lia.
  - rewrite <- (Z.mod_small x (2 ^ n)) by exact Hx.
    apply Z.mod_pow2_bits_high. lia.
Qed.

Lemma bounded_of_high_bits n x :
  0 <= n -> 0 <= x ->
  (forall k, n <= k -> Z.testbit x k = false) ->
  0 <= x < 2 ^ n.
Proof.
  intros Hn Hx Hhigh.
  replace x with (x mod 2 ^ n).
  - apply Z.mod_pos_bound. now apply Z.pow_pos_nonneg.
  - apply Z.bits_inj'. intros k Hk.
    destruct (Z.lt_ge_cases k n) as [Hlt|Hge].
    + apply Z.mod_pow2_bits_low. exact Hlt.
    + rewrite Z.mod_pow2_bits_high by lia. symmetry. now apply Hhigh.
Qed.

(** Writing a bit at an index of the capacity keeps the invariant. *)
Lemma wf_set_orb s i val :
  wf s -> 0 <= i < N_mos s -> wf (set_orb s i val).
Proof.
  intros [Hn Hb] Hi. split; [exact Hn|]. simpl.
  apply bounded_of_high_bits; [exact Hn| |].
  - destruct val; [apply setbit_nonneg|apply clearbit_nonneg]; lia.
  - intros k Hk. pose proof (high_bits_clear _ _ k Hb Hk) as Hclear.
    destruct val.
    + rewrite Z.setbit_neq by lia. exact Hclear.
    + rewrite Z.clearbit_neq by lia. exact Hclear.
Qed.

(** X27.  For a hole and a particle inside [[0, N_mos)], exciting a valid
    determinant gives a valid determinant of the same capacity, with [h]
    cleared, [p] set and every other orbital as before.  When [h = p] the
    orbital ends up set: the particle is written after the hole. *)
Theorem apply_single_excitation_in_range s h p :
  wf s ->
  0 <= h < N_mos s ->
  0 <= p < N_mos s ->
  let r := apply_single_excitation s h p in
  wf r /\ N_mos r = N_mos s /\
  forall i, get r i = if i =? p then true else if i =? h then false else get s i.
Proof.
  intros Hwf Hh Hp r. split; [|split].
  - apply wf_set_orb; [apply wf_set_orb|]; assumption.
  - reflexivity.
  - intros i. unfold r, apply_single_excitation, set_orb, get. simpl.
    rewrite Z.setbit_eqb, Z.clearbit_eqb by lia.
    rewrite (Z.eqb_sym p i), (Z.eqb_sym h i).
    destruct (i =? p), (i =? h); simpl;
      rewrite ?andb_true_r, ?andb_false_r; reflexivity.
Qed.

Lemma apply_single_excitation_in_range_witness :
  let r := apply_single_excitation scenario_alpha 1 3 in
  wf r /\ N_mos r = N_mos scenario_alpha /\
  forall i, get r i
            = if i =? 3 then true else if i =? 1 then false
              else get scenario_alpha i.
Proof.
  apply (apply_single_excitation_in_range scenario_alpha 1 3).
  - unfold wf; simpl; lia.
  - simpl; lia.
  - simpl; lia.
Defined.

End InRangeExcitation.

(* ================================================================== *)
(** * Mask resolution *)
(* ================================================================== *)

Section MaskResolution.

Lemma disjoint_of_bits a b :
  (forall n, 0 <= n ->
     Z.testbit (bits a) n && Z.testbit (bits b) n = false) ->
  disjoint a b.
Proof.
  intros Hbits. split.
  - simpl. apply Z.bits_inj'. intros n Hn.
    rewrite Z.land_spec, Z.bits_0. now apply Hbits.
  - intros i Ha Hb.
    apply In_to_constraint in Ha. apply In_to_constraint in Hb.
    destruct Ha as [Hi Ha], Hb as [_ Hb]. unfold get in *.
    specialize (Hbits i (proj1 Hi)). rewrite Ha, Hb in Hbits. discriminate.
Qed.

(** C3.  Whatever the determinant, the allow-lists and the cutoff, the hole
    set and the particle set resolved for a spin channel are disjoint: in
    [get_constrained_singles] (and [get_constrained_os_doubles]), in
    [get_constrained_ss_doubles], and in the unconstrained generators, where
    the two sets are the channel and its complement. *)
Theorem resolved_masks_disjoint
    (d : det_t) (constraint : exc_constraint_t) (max_orb : idx_t) (spin : Z) :
  let hole_mask := spin_det_of_list (det_N_mos d) (fst constraint) in
  let part_mask := spin_det_of_list (det_N_mos d) (snd constraint) in
  let max_orb_mask := spin_det_fill (det_N_mos d) max_orb true in
  let s := channel d spin in
  disjoint (singles_hole_bits s hole_mask max_orb_mask)
           (singles_part_bits s part_mask max_orb_mask)
  /\ disjoint (ss_doubles_hole_bits s hole_mask max_orb_mask)
              (ss_doubles_part_bits s part_mask max_orb_mask)
  /\ disjoint s (sd_not s).
Proof.
  intros hole_mask part_mask max_orb_mask s.
  repeat split; apply disjoint_of_bits; intros n Hn; simpl;
    rewrite ?Z.land_spec, Z.lnot_spec by exact Hn;
    destruct (Z.testbit (bits s) n); simpl;
    rewrite ?andb_false_r; reflexivity.
Qed.

Lemma get_singles_by_exc_mask_no_particle d spin h :
  get_singles_by_exc_mask d spin h [] = [].
Proof.
  unfold get_singles_by_exc_mask. induction h as [|i h IH]; [reflexivity|].
  simpl. exact IH.
Qed.

(** C1 on the code.  On the determinant of the scenario, with the holes
    restricted to orbital 1 and the particles to orbital 3,
    [get_constrained_singles] produces no determinant at all, whatever the
    cutoff: it takes its holes from the complement of the occupation
    ([~d[0] & hole_mask]) and its particles from the occupation
    ([d[0] & part_mask]), the reverse of what
    [get_constrained_ss_doubles] and [get_all_singles] do. *)
Theorem get_constrained_singles_scenario (max_orb : idx_t) :
  get_constrained_singles scenario_det ([1], [3]) max_orb = [].
Proof.
  unfold get_constrained_singles. cbv zeta.
  match goal with
  | |- get_singles_by_exc_mask _ _ ?ah _ ++ get_singles_by_exc_mask _ _ _ ?bp = _ =>
      change ah with (@nil idx_t); change bp with (@nil idx_t)
  end.
  rewrite !get_singles_by_exc_mask_no_particle. reflexivity.
Qed.

Lemma set_orb_clear_unoccupied s i : get s i = false -> set_orb s i false = s.
Proof.
  intros Hi. destruct s as [n b]. unfold set_orb, get in *. simpl in *.
  f_equal. apply Z.bits_inj'. intros k Hk. rewrite Z.clearbit_eqb.
  destruct (Z.eqb_spec i k) as [->|Hne]; simpl.
  - now rewrite Hi.
  - apply andb_true_r.
Qed.

Lemma set_orb_set_occupied s i : get s i = true -> set_orb s i true = s.
Proof.
  intros Hi. pose proof (occupied_nonneg s i Hi) as Hi0.
  destruct s as [n b]. unfold set_orb, get in *. simpl in *.
  f_equal. apply Z.bits_inj'. intros k Hk. rewrite Z.setbit_eqb by exact Hi0.
  destruct (Z.eqb_spec i k) as [->|Hne]; simpl; [now rewrite Hi|reflexivity].
Qed.

Lemma set_channel_same d spin : set_channel d spin (channel d spin) = d.
Proof. destruct d as [a b]. unfold set_channel, channel. now destruct (spin =? 0). Qed.

(** Taking an electron out of an empty orbital and putting one into an
    occupied orbital changes nothing. *)
Lemma apply_single_excitation_det_void d spin h p :
  get (channel d spin) h = false ->
  get (channel d spin) p = true ->
  apply_single_excitation_det d spin h p = d.
Proof.
  intros Hh Hp. unfold apply_single_excitation_det. cbv zeta.
  rewrite (set_orb_clear_unoccupied _ h Hh), set_channel_same.
  now rewrite (set_orb_set_occupied _ p Hp), set_channel_same.
Qed.

Lemma In_get_singles_by_exc_mask d spin hs ps x :
  In x (get_singles_by_exc_mask d spin hs ps) ->
  exists h p, In h hs /\ In p ps /\ x = apply_single_excitation_det d spin h p.
Proof.
  unfold get_singles_by_exc_mask. rewrite in_flat_map.
  intros [h [Hh Hx]]. apply in_map_iff in Hx. destruct Hx as [p [<- Hp]].
  now exists h, p.
Qed.

Lemma singles_hole_unoccupied s hm mm h :
  In h (to_constraint (singles_hole_bits s hm mm)) -> get s h = false.
Proof.
  intros Hin. apply In_to_constraint in Hin. destruct Hin as [Hr Hbit].
  unfold get in *. simpl in *. rewrite !Z.land_spec, Z.lnot_spec in Hbit by lia.
  destruct (Z.testbit (bits s) h); [discriminate|reflexivity].
Qed.

Lemma singles_part_occupied s pm mm p :
  In p (to_constraint (singles_part_bits s pm mm)) -> get s p = true.
Proof.
  intros Hin. apply In_to_constraint in Hin. destruct Hin as [_ Hbit].
  unfold get in *. simpl in *. rewrite !Z.land_spec in Hbit.
  destruct (Z.testbit (bits s) p); [reflexivity|discriminate].
Qed.

(** The same defect on every input: whatever [get_constrained_singles]
    returns is a copy of the source determinant, never an excitation of it. *)
Lemma get_constrained_singles_only_copies d constraint max_orb x :
  In x (get_constrained_singles d constraint max_orb) -> x = d.
Proof.
  unfold get_constrained_singles. cbv zeta. rewrite in_app_iff.
  intros [Hin|Hin]; apply In_get_singles_by_exc_mask in Hin;
    destruct Hin as [h [p [Hh [Hp ->]]]];
    apply apply_single_excitation_det_void;
    solve [eapply singles_hole_unoccupied; exact Hh
          |eapply singles_part_occupied; exact Hp].
Qed.

(** The resolution the specification describes, which is the one of
    [get_constrained_ss_doubles], gives the expected single excitation
    (1 -> 3) on the same input. *)
Lemma constrained_singles_scenario_expected :
  let hole_mask := spin_det_of_list 4 [1] in
  let part_mask := spin_det_of_list 4 [3] in
  let max_orb_mask := spin_det_fill 4 4 true in
  get_singles_by_exc_mask scenario_det 0
    (to_constraint (ss_doubles_hole_bits (channel scenario_det 0) hole_mask max_orb_mask))
    (to_constraint (ss_doubles_part_bits (channel scenario_det 0) part_mask max_orb_mask))
  = [apply_single_excitation_det scenario_det 0 1 3]
  /\ compute_phase_single_excitation (channel scenario_det 0) 1 3 = 1.
Proof. split; reflexivity. Qed.

End MaskResolution.

(* ================================================================== *)
(** * Counting singles *)
(* ================================================================== *)

Section SinglesCount.

Lemma length_get_singles_by_exc_mask d spin h p :
  length (get_singles_by_exc_mask d spin h p) = (length h * length p)%nat.
Proof.
  unfold get_singles_by_exc_mask. apply flat_map_constant_length.
  intros i _. apply length_map.
Qed.

(** C5.  The number of determinants [get_all_singles] generates is
    [occ_alpha * virt_alpha + occ_beta * virt_beta]. *)
Theorem get_all_singles_count d :
  wf_det d ->
  Z.of_nat (length (get_all_singles d))
  = occ (alpha d) * virt (alpha d) + occ (beta d) * virt (beta d).
Proof.
  intros [Ha [Hb _]]. unfold get_all_singles, occ, virt.
  change (channel d 0) with (alpha d). change (channel d 1) with (beta d).
  rewrite length_app, !length_get_singles_by_exc_mask.
  rewrite Nat2Z.inj_add, !Nat2Z.inj_mul.
  rewrite (length_to_constraint_not (alpha d)) by exact Ha.
  rewrite (length_to_constraint_not (beta d)) by exact Hb.
  rewrite (length_to_constraint (alpha d)) by exact Ha.
  rewrite (length_to_constraint (beta d)) by exact Hb.
  reflexivity.
Qed.

Lemma get_all_singles_count_witness :
  Z.of_nat (length (get_all_singles scenario_det))
  = occ (alpha scenario_det) * virt (alpha scenario_det)
    + occ (beta scenario_det) * virt (beta scenario_det).
Proof.
  apply (get_all_singles_count scenario_det).
  unfold wf_det, wf; simpl; lia.
Defined.

End SinglesCount.

(* ================================================================== *)
(** * The loops of the same-spin doubles *)
(* ================================================================== *)

Section Loops.

Lemma wrap_int_small z : - 2 ^ 31 <= z < 2 ^ 31 -> wrap_int z = z.
Proof. intros Hz. unfold wrap_int. rewrite Z.mod_small; lia. Qed.

Lemma wrap_int_range z : - 2 ^ 31 <= wrap_int z < 2 ^ 31.
Proof.
  unfold wrap_int.
  pose proof (Z.mod_pos_bound (z + 2 ^ 31) (2 ^ 32) ltac:(lia)). lia.
Qed.

Lemma to_size_t_nonneg z : 0 <= z < 2 ^ 64 -> to_size_t z = z.
Proof. intros Hz. unfold to_size_t. now apply Z.mod_small. Qed.

Lemma to_size_t_neg z : - 2 ^ 64 <= z < 0 -> to_size_t z = z + 2 ^ 64.
Proof.
  intros Hz. unfold to_size_t.
  rewrite <- (Z.mod_add z 1 (2 ^ 64)) by lia.
  apply Z.mod_small. lia.
Qed.

Lemma Zrange_nil lo hi : hi < lo -> Zrange lo hi = [].
Proof.
  intros H. unfold Zrange. replace (Z.to_nat (hi - lo + 1)) with 0%nat by lia.
  reflexivity.
Qed.

Lemma Zrange_cons lo hi : lo <= hi -> Zrange lo hi = lo :: Zrange (lo + 1) hi.
Proof.
  intros H. unfold Zrange.
  replace (Z.to_nat (hi - lo + 1)) with (S (Z.to_nat (hi - (lo + 1) + 1))) by lia.
  simpl. f_equal; [lia|].
  rewrite <- seq_shift, map_map. apply map_ext. intros k. lia.
Qed.

Context {A : Type}.

Lemma for_loop_exit fuel cond (body : Z -> outcome (list A)) i :
  (0 < fuel)%nat -> cond i = false -> for_loop fuel cond body i = Returns [].
Proof.
  intros Hfuel Hcond. destruct fuel as [|fuel]; [lia|].
  simpl. now rewrite Hcond.
Qed.

Lemma int_succ_in_range i : i < INT_MAX -> int_succ i = Some (i + 1).
Proof.
  intros Hi. unfold int_succ. destruct (Z.ltb_spec i INT_MAX); [reflexivity|lia].
Qed.

(** A loop whose counter climbs from [a] to the bound [b] without leaving
    the range of [int]. *)
Lemma for_loop_ascending cond (body : Z -> outcome (list A)) g lo b :
  0 <= lo -> b <= INT_MAX ->
  (forall i, lo <= i < b -> cond i = true) ->
  cond b = false ->
  (forall i, lo <= i < b -> body i = Returns (g i)) ->
  forall n a fuel,
  lo <= a <= b ->
  Z.of_nat n = b - a ->
  (n < fuel)%nat ->
  for_loop fuel cond body a = Returns (flat_map g (Zrange a (b - 1))).
Proof.
  intros Hlo Hb Htrue Hfalse Hbody.
  induction n as [|n IH]; intros a fuel Ha Hn Hfuel.
  - assert (a = b) by lia. subst a.
    rewrite for_loop_exit by (lia || assumption).
    now rewrite Zrange_nil by lia.
  - destruct fuel as [|fuel]; [lia|]. simpl.
    rewrite Htrue, Hbody by lia.
    rewrite int_succ_in_range by lia. simpl.
    rewrite (IH (a + 1) fuel) by lia.
    rewrite (Zrange_cons a (b - 1)) by lia. reflexivity.
Qed.

(** A loop whose test holds on every non-negative [int] cannot leave by its
    test: however much fuel it is given, it does not return. *)
Lemma for_loop_no_exit cond (body : Z -> outcome (list A)) :
  (forall i, 0 <= i <= INT_MAX -> cond i = true) ->
  forall fuel i l,
  0 <= i <= INT_MAX ->
  for_loop fuel cond body i <> Returns l.
Proof.
  intros Htrue. induction fuel as [|fuel IH]; intros i l Hi; simpl.
  - discriminate.
  - rewrite Htrue by exact Hi.
    destruct (body i) as [xs| |]; try discriminate.
    unfold int_succ. destruct (Z.ltb_spec i INT_MAX); simpl; [|discriminate].
    destruct (for_loop fuel cond body (i + 1)) as [ys| |] eqn:Hrest;
      try discriminate.
    exfalso. apply (IH (i + 1) ys); [lia|exact Hrest].
Qed.

(** Such a loop, given enough fuel, runs into the overflow of its counter
    or of an [int] computed in its body. *)
Lemma for_loop_overflows cond (body : Z -> outcome (list A)) g :
  (forall i, 0 <= i <= INT_MAX -> cond i = true) ->
  (forall i, 0 <= i < INT_MAX -> body i = Returns (g i)) ->
  body INT_MAX = Undefined ->
  forall n i fuel,
  0 <= i <= INT_MAX ->
  Z.of_nat n = INT_MAX - i ->
  (n < fuel)%nat ->
  for_loop fuel cond body i = Undefined.
Proof.
  intros Htrue Hbody Hlast.
  induction n as [|n IH]; intros i fuel Hi Hn Hfuel;
    (destruct fuel as [|fuel]; [lia|]); simpl; rewrite Htrue by exact Hi.
  - assert (i = INT_MAX) by lia. subst i. now rewrite Hlast.
  - rewrite Hbody by lia. rewrite int_succ_in_range by lia. simpl.
    now rewrite (IH (i + 1) fuel) by lia.
Qed.

(** Two nested loops of [get_ss_doubles_by_exc_mask] over a list of [n]
    entries, [n] at least 1: the outer counter [i] is tested against [n - 1]
    computed in [size_t], the inner one starts at [i + 1] and is tested
    against [n].  They visit the index pairs [i < j < n] in lexicographic
    order. *)
Lemma pair_loops fuel n (body : Z -> Z -> outcome (list A)) g :
  1 <= n <= INT_MAX ->
  n < Z.of_nat fuel ->
  (forall i j, 0 <= i < j -> j < n -> body i j = Returns (g i j)) ->
  for_loop fuel (fun i => to_size_t i <? to_size_t (n - 1))
    (fun i =>
       with_int (int_succ i) (fun start =>
         for_loop fuel (fun j => to_size_t j <? n) (body i) start))
    0
  = Returns (flat_map (fun i => flat_map (g i) (Zrange (i + 1) (n - 1)))
               (Zrange 0 (n - 2))).
Proof.
  intros Hn Hfuel Hbody. unfold INT_MAX in Hn.
  replace (n - 2) with (n - 1 - 1) by lia.
  apply for_loop_ascending with (lo := 0) (n := Z.to_nat (n - 1)).
  - lia.
  - unfold INT_MAX. lia.
  - intros i Hi. apply Z.ltb_lt. rewrite !to_size_t_nonneg by lia. lia.
  - apply Z.ltb_irrefl.
  - intros i Hi. rewrite int_succ_in_range by (unfold INT_MAX; lia). simpl.
    apply for_loop_ascending with (lo := i + 1) (n := Z.to_nat (n - (i + 1))).
    + lia.
    + unfold INT_MAX. lia.
    + intros j Hj. apply Z.ltb_lt. rewrite to_size_t_nonneg by lia. lia.
    + apply Z.ltb_ge. rewrite to_size_t_nonneg by lia. lia.
    + intros j Hj. apply Hbody; lia.
    + lia.
    + lia.
    + lia.
  - lia.
  - lia.
  - lia.
Qed.

(** The same two loops over an empty list: [size() - 1] is [2 ^ 64 - 1] in
    [size_t], the outer test holds for every non-negative [int], and the
    inner loop has nothing to do.  The nest does not return; with enough
    fuel it reaches the overflow of [i + 1] at [INT_MAX]. *)
Lemma pair_loops_empty fuel (body : Z -> Z -> outcome (list A)) :
  (forall l,
     for_loop fuel (fun i => to_size_t i <? to_size_t (0 - 1))
       (fun i =>
          with_int (int_succ i) (fun start =>
            for_loop fuel (fun j => to_size_t j <? 0) (body i) start))
       0
     <> Returns l)
  /\ (2 ^ 31 <= Z.of_nat fuel ->
      for_loop fuel (fun i => to_size_t i <? to_size_t (0 - 1))
        (fun i =>
           with_int (int_succ i) (fun start =>
             for_loop fuel (fun j => to_size_t j <? 0) (body i) start))
        0
      = Undefined).
Proof.
  assert (Htrue : forall i, 0 <= i <= INT_MAX ->
            (to_size_t i <? to_size_t (0 - 1)) = true).
  { intros i Hi. unfold INT_MAX in Hi. apply Z.ltb_lt.
    rewrite to_size_t_nonneg by lia. change (to_size_t (0 - 1)) with (2 ^ 64 - 1).
    lia. }
  split.
  - intros l. apply for_loop_no_exit; [exact Htrue|unfold INT_MAX; lia].
  - intros Hfuel.
    apply for_loop_overflows
      with (g := fun _ => []) (n := Z.to_nat INT_MAX).
    + exact Htrue.
    + intros i Hi. rewrite int_succ_in_range by lia. simpl.
      apply for_loop_exit; [lia|].
      apply Z.ltb_ge. unfold to_size_t. apply Z.mod_pos_bound. lia.
    + reflexivity.
    + unfold INT_MAX. lia.
    + unfold INT_MAX. lia.
    + unfold INT_MAX. lia.
Qed.

End Loops.

Section Counting.

Lemma binom_0 n : binom n 0 = 1%nat.
Proof. destruct n; reflexivity. Qed.

Lemma binom_1 n : binom n 1 = n.
Proof.
  induction n as [|n IH]; [reflexivity|].
  change (binom (S n) 1) with (binom n 0 + binom n 1)%nat.
  rewrite binom_0, IH. reflexivity.
Qed.

Lemma sum_descending c k :
  list_sum (map (fun x => ((k - x) * c)%nat) (seq 0 k)) = (binom (S k) 2 * c)%nat.
Proof.
  induction k as [|k IH]; [reflexivity|].
  rewrite <- cons_seq, <- seq_shift. cbn [map list_sum].
  rewrite map_map.
  rewrite (map_ext _ (fun x => ((k - x) * c)%nat)) by (intros; reflexivity).
  unfold list_sum in *. cbn [fold_right]. rewrite IH.
  change (binom (S (S k)) 2) with (binom (S k) 1 + binom (S k) 2)%nat.
  rewrite binom_1. lia.
Qed.

Context {A : Type}.

(** The number of elements produced over the index pairs [i < j < n]. *)
Lemma length_over_pairs (g : Z -> Z -> list A) c n :
  0 <= n ->
  (forall i j, length (g i j) = c) ->
  length (flat_map (fun i => flat_map (g i) (Zrange (i + 1) (n - 1)))
            (Zrange 0 (n - 2)))
  = (binom (Z.to_nat n) 2 * c)%nat.
Proof.
  intros Hn Hc. rewrite length_flat_map.
  rewrite (map_ext _ (fun i => (Z.to_nat (n - 1 - i) * c)%nat)).
  2:{ intros i. rewrite (flat_map_constant_length (c := c)) by (intros; apply Hc).
      rewrite length_Zrange. f_equal. lia. }
  unfold Zrange. rewrite map_map.
  destruct (Z.eq_dec n 0) as [->|Hn0]; [reflexivity|].
  replace (Z.to_nat (n - 2 - 0 + 1)) with (Z.to_nat n - 1)%nat by lia.
  rewrite (map_ext_in _ (fun x => ((Z.to_nat n - 1 - x) * c)%nat)).
  2:{ intros x Hx. apply in_seq in Hx. f_equal. lia. }
  rewrite sum_descending. f_equal. f_equal. lia.
Qed.

End Counting.


(* ================================================================== *)
(** * Counting same-spin doubles *)
(* ================================================================== *)

Section SameSpinDoubles.

(** With at least one hole and one particle listed, the four loops return
    the double excitations over the pairs of holes and pairs of particles. *)
Lemma get_ss_doubles_by_exc_mask_runs fuel d spin h p :
  1 <= vec_size h <= INT_MAX ->
  1 <= vec_size p <= INT_MAX ->
  vec_size h < Z.of_nat fuel ->
  vec_size p < Z.of_nat fuel ->
  get_ss_doubles_by_exc_mask fuel d spin h p = Returns (ss_doubles_over d spin h p).
Proof.
  intros Hh Hp Hfh Hfp. unfold get_ss_doubles_by_exc_mask, ss_doubles_over.
  apply (pair_loops fuel (vec_size h)
           (fun h1 h2 =>
              for_loop fuel (fun p1 => to_size_t p1 <? to_size_t (vec_size p - 1))
                (fun p1 =>
                   with_int (int_succ p1) (fun p2_start =>
                     for_loop fuel (fun p2 => to_size_t p2 <? vec_size p)
                       (fun p2 =>
                          Returns [apply_double_excitation_det d spin spin
                                     (vec_at h h1) (vec_at h h2)
                                     (vec_at p p1) (vec_at p p2)])
                       p2_start))
                0)).
  - exact Hh.
  - exact Hfh.
  - intros h1 h2 _ _.
    apply (pair_loops fuel (vec_size p)
             (fun p1 p2 =>
                Returns [apply_double_excitation_det d spin spin
                           (vec_at h h1) (vec_at h h2)
                           (vec_at p p1) (vec_at p p2)])
             (fun p1 p2 =>
                [apply_double_excitation_det d spin spin
                   (vec_at h h1) (vec_at h h2)
                   (vec_at p p1) (vec_at p p2)])).
    + exact Hp.
    + exact Hfp.
    + reflexivity.
Qed.

(** With no hole listed they do not return. *)
Lemma get_ss_doubles_by_exc_mask_no_hole fuel d spin p :
  (forall l, get_ss_doubles_by_exc_mask fuel d spin [] p <> Returns l)
  /\ (2 ^ 31 <= Z.of_nat fuel ->
      get_ss_doubles_by_exc_mask fuel d spin [] p = Undefined).
Proof.
  unfold get_ss_doubles_by_exc_mask. change (vec_size []) with 0.
  apply (pair_loops_empty fuel
           (fun h1 h2 =>
              for_loop fuel (fun p1 => to_size_t p1 <? to_size_t (vec_size p - 1))
                (fun p1 =>
                   with_int (int_succ p1) (fun p2_start =>
                     for_loop fuel (fun p2 => to_size_t p2 <? vec_size p)
                       (fun p2 =>
                          Returns [apply_double_excitation_det d spin spin
                                     (vec_at [] h1) (vec_at [] h2)
                                     (vec_at p p1) (vec_at p p2)])
                       p2_start))
                0)).
Qed.

Lemma length_ss_doubles_over d spin h p :
  length (ss_doubles_over d spin h p)
  = (binom (length h) 2 * binom (length p) 2)%nat.
Proof.
  unfold ss_doubles_over.
  rewrite (length_over_pairs _ (binom (length p) 2) (vec_size h)).
  - unfold vec_size. now rewrite Nat2Z.id.
  - unfold vec_size. lia.
  - intros h1 h2.
    rewrite (length_over_pairs _ 1%nat (vec_size p)).
    + unfold vec_size. rewrite Nat2Z.id. lia.
    + unfold vec_size. lia.
    + reflexivity.
Qed.

(** C4 on the code.  On the determinant of the scenario, whose beta channel
    is empty, [get_ss_doubles] returns no list, whatever the fuel: the beta
    hole list is empty, the bound [h.size() - 1] of the outer loop is
    [2 ^ 64 - 1] in [size_t], and the test [h1 < h.size() - 1] holds for
    every value the [int] counter can take on its way up.  Given the fuel to
    get there, the run ends in the signed overflow at [INT_MAX]. *)
Theorem get_ss_doubles_scenario_no_return :
  (forall fuel l, get_ss_doubles fuel scenario_det <> Returns l)
  /\ (forall fuel, 2 ^ 31 <= Z.of_nat fuel ->
        get_ss_doubles fuel scenario_det = Undefined).
Proof.
  split.
  - intros fuel l. unfold get_ss_doubles. cbv zeta.
    change (to_constraint (channel scenario_det 1)) with (@nil idx_t).
    pose proof (get_ss_doubles_by_exc_mask_no_hole fuel scenario_det 1
                  (to_constraint (sd_not (channel scenario_det 1)))) as [Hno _].
    unfold append_results.
    destruct (get_ss_doubles_by_exc_mask fuel scenario_det 0 _ _);
      try discriminate.
    destruct (get_ss_doubles_by_exc_mask fuel scenario_det 1 [] _) eqn:Hbeta;
      try discriminate.
    exfalso. now apply (Hno x0).
  - intros fuel Hfuel. unfold get_ss_doubles. cbv zeta.
    change (to_constraint (channel scenario_det 1)) with (@nil idx_t).
    change (to_constraint (channel scenario_det 0)) with ([0; 1] : list idx_t).
    change (to_constraint (sd_not (channel scenario_det 0)))
      with ([2; 3] : list idx_t).
    rewrite (get_ss_doubles_by_exc_mask_runs fuel scenario_det 0)
      by (unfold vec_size, INT_MAX; simpl length; lia).
    pose proof (get_ss_doubles_by_exc_mask_no_hole fuel scenario_det 1
                  (to_constraint (sd_not (channel scenario_det 1)))) as [_ Hub].
    unfold append_results. now rewrite Hub.
Qed.

(** On the same input the alpha channel alone gives its one double at once,
    and a thousand iterations do not end the loop of the beta channel. *)
Remark get_ss_doubles_scenario_small_fuel :
  get_ss_doubles_by_exc_mask 1000 scenario_det 0 [0; 1] [2; 3]
  = Returns [mk_det (mk_spin_det 4 12) (mk_spin_det 4 0)]
  /\ get_ss_doubles_by_exc_mask 1000 scenario_det 1 [] [0; 1; 2; 3] = OutOfFuel
  /\ get_ss_doubles 1000 scenario_det = OutOfFuel.
Proof. repeat split; vm_compute; reflexivity. Qed.

End SameSpinDoubles.

(* ================================================================== *)
(** * Laws of the bit and excitation operators *)
(* ================================================================== *)

Section OperatorLaws.

Lemma get_set_orb s i val k :
  0 <= i -> get (set_orb s i val) k = if k =? i then val else get s k.
Proof.
  intros Hi. unfold get, set_orb. simpl. rewrite (Z.eqb_sym k i).
  destruct val.
  - rewrite Z.setbit_eqb by exact Hi. now destruct (i =? k).
  - rewrite Z.clearbit_eqb. destruct (i =? k); simpl.
    + apply andb_false_r.
    + apply andb_true_r.
Qed.

Lemma count_set_orb_true s i :
  0 <= bits s -> 0 <= i -> get s i = false ->
  count (set_orb s i true) = count s + 1.
Proof.
  intros Hb Hi Hfree. unfold count, set_orb, get in *. simpl.
  rewrite popcount_setbit by assumption. lia.
Qed.

Lemma count_set_orb_false s i :
  0 <= bits s -> get s i = true ->
  count (set_orb s i false) = count s - 1.
Proof.
  intros Hb Hocc. unfold count, set_orb, get in *. simpl.
  rewrite <- (popcount_clearbit (bits s) i) by assumption. lia.
Qed.

Lemma setbit_clearbit_comm x i j :
  i <> j -> Z.setbit (Z.clearbit x j) i = Z.clearbit (Z.setbit x i) j.
Proof.
  intros Hne. destruct (Z.neg_nonneg_cases i) as [Hneg|Hi].
  - now rewrite !setbit_neg_index by exact Hneg.
  - apply Z.bits_inj'. intros k Hk.
    rewrite Z.setbit_eqb, !Z.clearbit_eqb, Z.setbit_eqb by exact Hi.
    destruct (Z.eqb_spec i k) as [->|Hik]; simpl; [|reflexivity].
    destruct (Z.eqb_spec j k) as [->|Hjk]; [contradiction|reflexivity].
Qed.

Lemma channel_set_channel_same d spin s :
  channel (set_channel d spin s) spin = s.
Proof. unfold channel, set_channel. now destruct (spin =? 0). Qed.

Lemma set_channel_twice d spin s t :
  set_channel (set_channel d spin s) spin t = set_channel d spin t.
Proof. unfold set_channel. now destruct (spin =? 0). Qed.

Lemma channel_set_channel_other d spin s :
  spin = 0 \/ spin = 1 ->
  channel (set_channel d spin s) (1 - spin) = channel d (1 - spin).
Proof. intros [-> | ->]; reflexivity. Qed.

(** The determinant overload of the single excitation acts on the selected
    channel as the spin overload does. *)
Lemma apply_single_excitation_det_channel d spin h p :
  apply_single_excitation_det d spin h p
  = set_channel d spin (apply_single_excitation (channel d spin) h p).
Proof.
  unfold apply_single_excitation_det, apply_single_excitation. cbv zeta.
  now rewrite channel_set_channel_same, set_channel_twice.
Qed.

Lemma apply_double_excitation_det_same_spin d spin h1 h2 p1 p2 :
  apply_double_excitation_det d spin spin h1 h2 p1 p2
  = set_channel d spin (apply_double_excitation (channel d spin) h1 h2 p1 p2).
Proof.
  unfold apply_double_excitation_det, apply_double_excitation. cbv zeta.
  now rewrite !channel_set_channel_same, !set_channel_twice.
Qed.

Lemma apply_double_excitation_valid s h1 h2 p1 p2 :
  wf s ->
  h1 <> h2 -> p1 <> p2 ->
  0 <= h1 < N_mos s -> 0 <= h2 < N_mos s ->
  0 <= p1 < N_mos s -> 0 <= p2 < N_mos s ->
  get s h1 = true -> get s h2 = true ->
  get s p1 = false -> get s p2 = false ->
  wf (apply_double_excitation s h1 h2 p1 p2)
  /\ count (apply_double_excitation s h1 h2 p1 p2) = count s.
Proof.
  intros Hwf Hh Hp Hh1 Hh2 Hp1 Hp2 Ho1 Ho2 Hf1 Hf2.
  unfold apply_double_excitation. cbv zeta.
  assert (h1 <> p1 /\ h1 <> p2 /\ h2 <> p1 /\ h2 <> p2) as (N1 & N2 & N3 & N4)
    by (repeat split; intros ->; congruence).
  set (s1 := set_orb s h1 false).
  set (s2 := set_orb s1 h2 false).
  set (s3 := set_orb s2 p1 true).
  assert (W1 : wf s1) by (apply wf_set_orb; assumption).
  assert (W2 : wf s2) by (apply wf_set_orb; assumption).
  assert (W3 : wf s3) by (apply wf_set_orb; assumption).
  split; [apply wf_set_orb; assumption|].
  rewrite count_set_orb_true; [|apply W3|lia|].
  - unfold s3. rewrite count_set_orb_true; [|apply W2|lia|].
    + unfold s2. rewrite count_set_orb_false; [|apply W1|].
      * unfold s1. rewrite count_set_orb_false; [lia|apply Hwf|exact Ho1].
      * unfold s1. rewrite get_set_orb by lia.
        destruct (Z.eqb_spec h2 h1); [congruence|exact Ho2].
    + unfold s2, s1. rewrite !get_set_orb by lia.
      destruct (Z.eqb_spec p1 h2); [congruence|].
      destruct (Z.eqb_spec p1 h1); [congruence|exact Hf1].
  - unfold s3, s2, s1. rewrite !get_set_orb by lia.
    destruct (Z.eqb_spec p2 p1); [congruence|].
    destruct (Z.eqb_spec p2 h2); [congruence|].
    destruct (Z.eqb_spec p2 h1); [congruence|exact Hf2].
Qed.


(** Validity, electron count and occupations after a single excitation. *)
Lemma apply_single_excitation_valid s h p :
  wf s -> 0 <= h < N_mos s -> 0 <= p < N_mos s ->
  get s h = true -> get s p = false ->
  wf (apply_single_excitation s h p)
  /\ count (apply_single_excitation s h p) = count s.
Proof.
  intros Hwf Hh Hp Ho Hf. unfold apply_single_excitation. cbv zeta.
  assert (W1 : wf (set_orb s h false)) by (apply wf_set_orb; assumption).
  split; [apply wf_set_orb; assumption|].
  rewrite count_set_orb_true; [|apply W1|lia|].
  - rewrite count_set_orb_false; [lia|apply Hwf|exact Ho].
  - rewrite get_set_orb by lia.
    destruct (Z.eqb_spec p h) as [->|_]; [congruence|exact Hf].
Qed.

Lemma get_apply_single_excitation s h p i :
  0 <= h -> 0 <= p ->
  get (apply_single_excitation s h p) i
  = if i =? p then true else if i =? h then false else get s i.
Proof.
  intros Hh Hp. unfold apply_single_excitation. cbv zeta.
  now rewrite !get_set_orb by assumption.
Qed.

End OperatorLaws.

(* ================================================================== *)
(** * Further properties of the phases *)
(* ================================================================== *)

Section PhaseLaws.

(** X1.  The phase of a single excitation does not depend on the order of
    its two orbitals, [(h, p)] and [(p, h)] give the same sign, and it is
    always [+1] or [-1]. *)
Theorem phase_single_excitation_symmetric d h p :
  compute_phase_single_excitation d h p = compute_phase_single_excitation d p h
  /\ (compute_phase_single_excitation d h p = 1
      \/ compute_phase_single_excitation d h p = -1).
Proof.
  split.
  - unfold compute_phase_single_excitation.
    now rewrite (Z.min_comm h p), (Z.max_comm h p).
  - apply phase_single_is_sign.
Qed.

(** X2.  For ordered pairs [h1 < h2] and [p1 < p2], which is how
    [get_ss_doubles_by_exc_mask] picks them, the two sign corrections of the
    same-spin double phase never apply together: the product of the two
    single phases is flipped exactly when [h2 < p1] or [p2 < h1]. *)
Theorem phase_double_excitation_ordered d h1 h2 p1 p2 :
  h1 < h2 -> p1 < p2 ->
  compute_phase_double_excitation d h1 h2 p1 p2
  = compute_phase_single_excitation d h1 p1
    * compute_phase_single_excitation d h2 p2
    * (if (h2 <? p1) || (p2 <? h1) then -1 else 1).
Proof.
  intros Hh Hp. unfold compute_phase_double_excitation.
  destruct (Z.ltb_spec h2 p1), (Z.ltb_spec p2 h1); simpl; try ring; lia.
Qed.

Lemma phase_double_excitation_ordered_witness :
  compute_phase_double_excitation scenario_alpha 0 1 2 3
  = compute_phase_single_excitation scenario_alpha 0 2
    * compute_phase_single_excitation scenario_alpha 1 3
    * (if (1 <? 2) || (3 <? 0) then -1 else 1).
Proof.
  apply (phase_double_excitation_ordered scenario_alpha 0 1 2 3); lia.
Defined.

(** X3.  Both double-excitation phases, the same-spin one on a spin
    determinant and the opposite-spin one on a determinant, are [+1] or
    [-1]. *)
Theorem phase_double_excitation_is_sign :
  (forall (d : spin_det_t) h1 h2 p1 p2,
     compute_phase_double_excitation d h1 h2 p1 p2 = 1
     \/ compute_phase_double_excitation d h1 h2 p1 p2 = -1)
  /\ (forall (d : det_t) h1 h2 p1 p2,
        compute_phase_double_excitation_det d h1 h2 p1 p2 = 1
        \/ compute_phase_double_excitation_det d h1 h2 p1 p2 = -1).
Proof.
  split; intros d h1 h2 p1 p2.
  - unfold compute_phase_double_excitation.
    destruct (phase_single_is_sign d h1 p1) as [-> | ->],
             (phase_single_is_sign d h2 p2) as [-> | ->],
             (h2 <? p1), (p2 <? h1); simpl; auto.
  - unfold compute_phase_double_excitation_det.
    destruct (phase_single_is_sign (channel d 0) h1 p1) as [-> | ->],
             (phase_single_is_sign (channel d 1) h2 p2) as [-> | ->];
      simpl; auto.
Qed.

End PhaseLaws.

(* ================================================================== *)
(** * Double excitations and determinant differences *)
(* ================================================================== *)

Section ExcitationLaws.



(** When the first particle is the second hole the two differ. *)
Lemma apply_double_excitation_overlap :
  apply_double_excitation scenario_alpha 0 2 2 3 = mk_spin_det 4 14
  /\ apply_single_excitation (apply_single_excitation scenario_alpha 0 2) 2 3
     = mk_spin_det 4 10.
Proof. split; reflexivity. Qed.

(** X5.  A double excitation with two distinct occupied holes and two
    distinct unoccupied particles, all inside the capacity, turns a valid spin
    determinant into a valid one with the same population count. *)
Theorem apply_double_excitation_count s h1 h2 p1 p2 :
  wf s ->
  h1 <> h2 -> p1 <> p2 ->
  0 <= h1 < N_mos s -> 0 <= h2 < N_mos s ->
  0 <= p1 < N_mos s -> 0 <= p2 < N_mos s ->
  get s h1 = true -> get s h2 = true ->
  get s p1 = false -> get s p2 = false ->
  wf (apply_double_excitation s h1 h2 p1 p2)
  /\ count (apply_double_excitation s h1 h2 p1 p2) = count s.
Proof.
  intros Hwf Hh Hp Hh1 Hh2 Hp1 Hp2 Ho1 Ho2 Hf1 Hf2.
  assert (h1 <> p1 /\ h1 <> p2 /\ h2 <> p1 /\ h2 <> p2) as (N1 & N2 & N3 & N4)
    by (repeat split; intros ->; congruence).
  replace (apply_double_excitation s h1 h2 p1 p2)
    with (apply_single_excitation (apply_single_excitation s h1 p1) h2 p2).
  - destruct (apply_single_excitation_valid s h1 p1) as [W1 C1]; try assumption.
    destruct (apply_single_excitation_valid
                (apply_single_excitation s h1 p1) h2 p2) as [W2 C2];
      try assumption.
    + rewrite get_apply_single_excitation by lia.
      destruct (Z.eqb_spec h2 p1), (Z.eqb_spec h2 h1); congruence.
    + rewrite get_apply_single_excitation by lia.
      destruct (Z.eqb_spec p2 p1), (Z.eqb_spec p2 h1); congruence.
    + split; [exact W2|congruence].
  - unfold apply_double_excitation, apply_single_excitation, set_orb.
    simpl. do 2 f_equal. symmetry. apply setbit_clearbit_comm. congruence.
Qed.

Lemma apply_double_excitation_count_witness :
  wf (apply_double_excitation scenario_alpha 0 1 2 3)
  /\ count (apply_double_excitation scenario_alpha 0 1 2 3) = count scenario_alpha.
Proof.
  apply (apply_double_excitation_count scenario_alpha 0 1 2 3);
    try reflexivity; try (simpl; lia).
  unfold wf; simpl; lia.
Defined.

(** X6.  On a determinant, for channels 0 and 1, a double excitation is the
    single excitation [(h1, p1)] in channel [spin_1] followed by the single
    excitation [(h2, p2)] in channel [spin_2], whenever the channels differ
    or the first particle is not the second hole. *)
Theorem apply_double_excitation_det_as_singles d spin_1 spin_2 h1 h2 p1 p2 :
  spin_1 = 0 \/ spin_1 = 1 ->
  spin_2 = 0 \/ spin_2 = 1 ->
  spin_1 <> spin_2 \/ p1 <> h2 ->
  apply_double_excitation_det d spin_1 spin_2 h1 h2 p1 p2
  = apply_single_excitation_det
      (apply_single_excitation_det d spin_1 h1 p1) spin_2 h2 p2.
Proof.
  intros [-> | ->] [-> | ->] Hne; try reflexivity;
    (destruct Hne as [Hne|Hne]; [contradiction|]);
    rewrite apply_double_excitation_det_same_spin,
      !apply_single_excitation_det_channel,
      channel_set_channel_same, set_channel_twice;
    unfold apply_double_excitation, apply_single_excitation, set_orb;
    simpl; do 3 f_equal; now apply setbit_clearbit_comm.
Qed.

Lemma apply_double_excitation_det_as_singles_witness :
  apply_double_excitation_det scenario_det 0 0 0 1 2 3
  = apply_single_excitation_det
      (apply_single_excitation_det scenario_det 0 0 2) 0 1 3.
Proof.
  apply (apply_double_excitation_det_as_singles scenario_det 0 0 0 1 2 3).
  - left; reflexivity.
  - left; reflexivity.
  - right; lia.
Defined.

Lemma bits_xor_double b h1 h2 p1 p2 :
  0 <= p1 -> 0 <= p2 ->
  Z.testbit b h1 = true -> Z.testbit b h2 = true ->
  Z.testbit b p1 = false -> Z.testbit b p2 = false ->
  Z.lxor b (Z.setbit (Z.setbit (Z.clearbit (Z.clearbit b h1) h2) p1) p2)
  = Z.setbit (Z.setbit (Z.setbit (Z.setbit 0 h1) h2) p1) p2.
Proof.
  intros Hp1 Hp2 Ho1 Ho2 Hf1 Hf2.
  assert (Hh1 : 0 <= h1) by (apply (occupied_nonneg (mk_spin_det 0 b)); exact Ho1).
  assert (Hh2 : 0 <= h2) by (apply (occupied_nonneg (mk_spin_det 0 b)); exact Ho2).
  apply Z.bits_inj'. intros n Hn.
  rewrite Z.lxor_spec, !Z.setbit_eqb, !Z.clearbit_eqb, Z.bits_0 by lia.
  destruct (Z.eqb_spec p2 n) as [->|Q2]; simpl; [now rewrite Hf2|].
  destruct (Z.eqb_spec p1 n) as [->|Q1]; simpl; [now rewrite Hf1|].
  destruct (Z.eqb_spec h2 n) as [->|Q3]; simpl;
    [now rewrite Ho2, andb_false_r|].
  destruct (Z.eqb_spec h1 n) as [->|Q4]; simpl; [now rewrite Ho1|].
  rewrite !andb_true_r. apply xorb_nilpotent.
Qed.

(** X7.  For a same-spin double excitation with distinct occupied holes and
    distinct unoccupied particles, [exc_det] of the determinant and the
    excited one has exactly the four bits [h1, h2, p1, p2] set in the excited
    channel and none in the other. *)
Theorem exc_det_apply_double_excitation d spin h1 h2 p1 p2 :
  spin = 0 \/ spin = 1 ->
  h1 <> h2 -> p1 <> p2 ->
  0 <= p1 -> 0 <= p2 ->
  get (channel d spin) h1 = true -> get (channel d spin) h2 = true ->
  get (channel d spin) p1 = false -> get (channel d spin) p2 = false ->
  let e := exc_det d (apply_double_excitation_det d spin spin h1 h2 p1 p2) in
  (forall i, get (channel e spin) i
             = (i =? h1) || (i =? h2) || (i =? p1) || (i =? p2))
  /\ count (channel e spin) = 4
  /\ bits (channel e (1 - spin)) = 0.
Proof.
  intros Hspin Hh Hp Hp1 Hp2 Ho1 Ho2 Hf1 Hf2 e.
  assert (Hh1 : 0 <= h1) by (eapply occupied_nonneg; exact Ho1).
  assert (Hh2 : 0 <= h2) by (eapply occupied_nonneg; exact Ho2).
  assert (h1 <> p1 /\ h1 <> p2 /\ h2 <> p1 /\ h2 <> p2) as (N1 & N2 & N3 & N4)
    by (repeat split; intros ->; congruence).
  assert (Hbits : bits (channel e spin)
                  = Z.setbit (Z.setbit (Z.setbit (Z.setbit 0 h1) h2) p1) p2).
  { destruct Hspin as [-> | ->]; simpl in *;
      apply bits_xor_double; assumption. }
  split; [|split].
  - intros i. unfold get. rewrite Hbits.
    destruct (Z.neg_nonneg_cases i) as [Hneg|Hi].
    + rewrite Z.testbit_neg_r by exact Hneg.
      destruct (Z.eqb_spec i h1), (Z.eqb_spec i h2),
               (Z.eqb_spec i p1), (Z.eqb_spec i p2); try reflexivity; lia.
    + rewrite !Z.setbit_eqb, Z.bits_0 by lia.
      rewrite (Z.eqb_sym p2 i), (Z.eqb_sym p1 i), (Z.eqb_sym h2 i), (Z.eqb_sym h1 i).
      destruct (i =? h1), (i =? h2), (i =? p1), (i =? p2); reflexivity.
  - unfold count. rewrite Hbits.
    rewrite (popcount_setbit p2); [|lia|repeat apply setbit_nonneg; lia|].
    + rewrite (popcount_setbit p1); [|lia|repeat apply setbit_nonneg; lia|].
      * rewrite (popcount_setbit h2); [|lia|repeat apply setbit_nonneg; lia|].
        -- rewrite (popcount_setbit h1); [reflexivity|lia|lia|apply Z.bits_0].
        -- rewrite Z.setbit_neq, Z.bits_0 by lia. reflexivity.
      * rewrite !Z.setbit_neq, Z.bits_0 by lia. reflexivity.
    + rewrite !Z.setbit_neq, Z.bits_0 by lia. reflexivity.
  - destruct Hspin as [-> | ->]; simpl; apply Z.lxor_nilpotent.
Qed.

Lemma exc_det_apply_double_excitation_witness :
  let e := exc_det scenario_det
             (apply_double_excitation_det scenario_det 0 0 0 1 2 3) in
  (forall i, get (channel e 0) i
             = (i =? 0) || (i =? 1) || (i =? 2) || (i =? 3))
  /\ count (channel e 0) = 4
  /\ bits (channel e (1 - 0)) = 0.
Proof.
  apply (exc_det_apply_double_excitation scenario_det 0 0 1 2 3);
    try reflexivity; try lia.
Defined.

(** X8.  For determinants of equal capacities, [exc_det a (exc_det a b)]
    gives [b] back, and [exc_det a b] is empty in both channels exactly when
    [a = b]. *)
Theorem exc_det_involutive a b :
  N_mos (alpha a) = N_mos (alpha b) ->
  N_mos (beta a) = N_mos (beta b) ->
  exc_det a (exc_det a b) = b
  /\ (bits (alpha (exc_det a b)) = 0 /\ bits (beta (exc_det a b)) = 0 <-> a = b).
Proof.
  intros Ha Hb. destruct a as [[na ba] [nb bb]], b as [[na' ba'] [nb' bb']].
  simpl in *. subst na' nb'. split.
  - unfold exc_det, sd_xor. simpl.
    now rewrite <- !Z.lxor_assoc, !Z.lxor_nilpotent, !Z.lxor_0_l.
  - unfold exc_det, sd_xor. simpl. rewrite !Z.lxor_eq_0_iff. split.
    + intros [-> ->]. reflexivity.
    + intros H. inversion H. now split.
Qed.

Lemma exc_det_involutive_witness :
  exc_det scenario_det
    (exc_det scenario_det (apply_single_excitation_det scenario_det 0 1 3))
  = apply_single_excitation_det scenario_det 0 1 3.
Proof.
  apply (proj1 (exc_det_involutive scenario_det
                  (apply_single_excitation_det scenario_det 0 1 3)
                  eq_refl eq_refl)).
Defined.

End ExcitationLaws.

(* ================================================================== *)
(** * Enumerations *)
(* ================================================================== *)

Section GeneratorLemmas.

Lemma NoDup_to_constraint s : NoDup (to_constraint s).
Proof. unfold to_constraint. apply NoDup_filter, NoDup_Zrange. Qed.

Lemma In_to_constraint_not s i :
  In i (to_constraint (sd_not s)) <-> 0 <= i < N_mos s /\ get s i = false.
Proof.
  rewrite In_to_constraint. simpl N_mos. split.
  - intros [Hi Hg]. split; [exact Hi|].
    rewrite get_sd_not in Hg by exact Hi. now destruct (get s i).
  - intros [Hi Hg]. split; [exact Hi|].
    rewrite get_sd_not by exact Hi. now rewrite Hg.
Qed.

(** Membership in a product enumeration (outer loop over [hs], inner loop
    over [ps]). *)
Lemma In_product {B : Type} (f : Z -> Z -> B) (hs ps : list Z) (x : B) :
  In x (flat_map (fun i => map (fun j => f i j) ps) hs)
  <-> exists h p, In h hs /\ In p ps /\ x = f h p.
Proof.
  rewrite in_flat_map. split.
  - intros [h [Hh Hx]]. apply in_map_iff in Hx. destruct Hx as [p [<- Hp]].
    now exists h, p.
  - intros [h [p [Hh [Hp ->]]]]. exists h. split; [exact Hh|].
    apply in_map_iff. now exists p.
Qed.

Lemma NoDup_product {B : Type} (f : Z -> Z -> B) (hs ps : list Z) :
  NoDup hs -> NoDup ps ->
  (forall h p h' p', In h hs -> In p ps -> In h' hs -> In p' ps ->
                     f h p = f h' p' -> h = h' /\ p = p') ->
  NoDup (flat_map (fun i => map (fun j => f i j) ps) hs).
Proof.
  intros Hhs Hps Hinj. induction Hhs as [|h hs Hnotin Hnodup IH]; simpl.
  - constructor.
  - apply NoDup_app.
    + apply NoDup_map_NoDup_ForallPairs; [|exact Hps].
      intros p p' Hp Hp' Heq.
      now destruct (Hinj h p h p' (or_introl eq_refl) Hp (or_introl eq_refl) Hp' Heq).
    + apply IH. intros a p a' p' Ha Hp Ha' Hp'.
      apply Hinj; solve [now right | assumption].
    + intros x Hx Hx'. apply in_map_iff in Hx. destruct Hx as [p [<- Hp]].
      apply (In_product f hs ps) in Hx'. destruct Hx' as [h' [p' [Hh' [Hp' Heq]]]].
      destruct (Hinj h p h' p' (or_introl eq_refl) Hp (or_intror Hh') Hp' Heq)
        as [-> _].
      contradiction.
Qed.

(** Position of the pair [(i, j)] in a product enumeration. *)
Lemma nth_error_product {B : Type} (f : Z -> Z -> B) (hs ps : list Z) :
  forall i j,
  (i < length hs)%nat -> (j < length ps)%nat ->
  nth_error (flat_map (fun a => map (fun b => f a b) ps) hs)
            (i * length ps + j)
  = Some (f (nth i hs 0) (nth j ps 0)).
Proof.
  induction hs as [|h hs IH]; intros i j Hi Hj; simpl in Hi; [lia|].
  simpl flat_map. destruct i as [|i].
  - change (0 * length ps + j)%nat with j.
    rewrite nth_error_app1 by (rewrite length_map; lia).
    rewrite nth_error_map, (nth_error_nth' ps 0 Hj). reflexivity.
  - rewrite nth_error_app2 by (rewrite length_map; lia).
    rewrite length_map.
    replace (S i * length ps + j - length ps)%nat
      with (i * length ps + j)%nat by lia.
    apply IH; lia.
Qed.

(** A single excitation tells its hole and its particle. *)
Lemma apply_single_excitation_injective s h p h' p' :
  get s h = true -> get s h' = true ->
  0 <= p -> 0 <= p' ->
  get s p = false -> get s p' = false ->
  apply_single_excitation s h p = apply_single_excitation s h' p' ->
  h = h' /\ p = p'.
Proof.
  intros Hh Hh' Hp Hp' Hf Hf' Heq.
  pose proof (occupied_nonneg s h Hh) as Hh0.
  pose proof (occupied_nonneg s h' Hh') as Hh0'.
  assert (Hget : forall k,
            get (apply_single_excitation s h p) k
            = get (apply_single_excitation s h' p') k) by now rewrite Heq.
  unfold apply_single_excitation in Hget. cbv zeta in Hget.
  split.
  - specialize (Hget h). rewrite !get_set_orb in Hget by lia.
    rewrite Z.eqb_refl in Hget.
    destruct (Z.eqb_spec h p) as [->|_]; [congruence|].
    destruct (Z.eqb_spec h p') as [->|_]; [congruence|].
    destruct (Z.eqb_spec h h') as [|_]; [assumption|congruence].
  - specialize (Hget p). rewrite !get_set_orb in Hget by lia.
    rewrite Z.eqb_refl in Hget.
    destruct (Z.eqb_spec p p') as [|_]; [assumption|].
    destruct (Z.eqb_spec p h') as [->|_]; congruence.
Qed.

Lemma apply_single_excitation_changes s h p :
  get s h = true -> 0 <= p -> get s p = false ->
  apply_single_excitation s h p <> s.
Proof.
  intros Hh Hp Hf Heq.
  pose proof (occupied_nonneg s h Hh) as Hh0.
  assert (Hget : get (apply_single_excitation s h p) h = get s h) by now rewrite Heq.
  unfold apply_single_excitation in Hget. cbv zeta in Hget.
  rewrite !get_set_orb in Hget by lia. rewrite Z.eqb_refl in Hget.
  destruct (Z.eqb_spec h p) as [->|_]; congruence.
Qed.

End GeneratorLemmas.

(* ================================================================== *)
(** * The list of single excitations *)
(* ================================================================== *)

Section SinglesEnumeration.

(** X9.  [get_singles_by_exc_mask] returns [|h| * |p|] determinants, holes
    in the outer loop and particles in the inner one: the entry at position
    [i * |p| + j] is the excitation from the [i]-th hole to the [j]-th
    particle. *)
Theorem get_singles_by_exc_mask_order d spin h p (i j : nat) :
  (i < length h)%nat -> (j < length p)%nat ->
  length (get_singles_by_exc_mask d spin h p) = (length h * length p)%nat
  /\ nth_error (get_singles_by_exc_mask d spin h p) (i * length p + j)
     = Some (apply_single_excitation_det d spin (nth i h 0) (nth j p 0)).
Proof.
  intros Hi Hj. split.
  - apply length_get_singles_by_exc_mask.
  - unfold get_singles_by_exc_mask.
    apply (nth_error_product (apply_single_excitation_det d spin)); assumption.
Qed.

Lemma get_singles_by_exc_mask_order_witness :
  length (get_singles_by_exc_mask scenario_det 0 [0; 1] [2; 3]) = (2 * 2)%nat
  /\ nth_error (get_singles_by_exc_mask scenario_det 0 [0; 1] [2; 3]) (1 * 2 + 0)
     = Some (apply_single_excitation_det scenario_det 0 1 2).
Proof.
  apply (get_singles_by_exc_mask_order scenario_det 0 [0; 1] [2; 3] 1 0);
    simpl; lia.
Defined.

Lemma get_all_singles_elements d x :
  In x (get_all_singles d) ->
  exists spin h p,
    (spin = 0 \/ spin = 1)
    /\ 0 <= h < N_mos (channel d spin) /\ get (channel d spin) h = true
    /\ 0 <= p < N_mos (channel d spin) /\ get (channel d spin) p = false
    /\ x = apply_single_excitation_det d spin h p.
Proof.
  unfold get_all_singles. cbv zeta. rewrite in_app_iff.
  unfold get_singles_by_exc_mask.
  rewrite !(In_product (apply_single_excitation_det d _)).
  intros [[h [p [Hh [Hp ->]]]]|[h [p [Hh [Hp ->]]]]];
    apply In_to_constraint in Hh; apply In_to_constraint_not in Hp;
    [exists 0, h, p|exists 1, h, p]; intuition.
Qed.

(** X10.  [get_all_singles] is complete and sound: a determinant is in the
    list exactly when it is a single excitation of [d], in channel 0 or 1,
    from an occupied orbital to an unoccupied orbital of that channel. *)
Theorem In_get_all_singles d x :
  In x (get_all_singles d)
  <-> exists spin h p,
        (spin = 0 \/ spin = 1)
        /\ 0 <= h < N_mos (channel d spin) /\ get (channel d spin) h = true
        /\ 0 <= p < N_mos (channel d spin) /\ get (channel d spin) p = false
        /\ x = apply_single_excitation_det d spin h p.
Proof.
  split; [apply get_all_singles_elements|].
  unfold get_all_singles. cbv zeta. rewrite in_app_iff.
  unfold get_singles_by_exc_mask.
  rewrite !(In_product (apply_single_excitation_det d _)).
  intros [spin [h [p [[-> | ->] [Hh [Ho [Hp [Hf ->]]]]]]]];
    [left|right]; exists h, p;
    (split; [apply In_to_constraint; now split|]);
    (split; [apply In_to_constraint_not; now split|reflexivity]).
Qed.

Lemma wf_det_set_channel d spin s :
  wf_det d -> wf s -> N_mos s = N_mos (channel d spin) ->
  wf_det (set_channel d spin s).
Proof.
  intros [Ha [Hb Heq]] Hs Hn. unfold set_channel, channel in *.
  revert Hn. destruct (spin =? 0); intros Hn; unfold wf_det; simpl;
    (split; [assumption|split; [assumption|congruence]]).
Qed.

(** X11.  Every determinant [get_all_singles] generates from a valid
    determinant is valid and has the electron count of the source in each
    channel. *)
Theorem get_all_singles_valid d x :
  wf_det d ->
  In x (get_all_singles d) ->
  wf_det x
  /\ count (alpha x) = count (alpha d)
  /\ count (beta x) = count (beta d).
Proof.
  intros Hwf Hin.
  apply get_all_singles_elements in Hin.
  destruct Hin as [spin [h [p [Hspin [Hh [Ho [Hp [Hf ->]]]]]]]].
  rewrite apply_single_excitation_det_channel.
  assert (Hc : wf (channel d spin)).
  { destruct Hwf as [Ha [Hb _]]. destruct Hspin as [-> | ->]; assumption. }
  destruct (apply_single_excitation_valid _ h p Hc Hh Hp Ho Hf) as [Hv Hcount].
  split.
  - apply wf_det_set_channel; [exact Hwf|exact Hv|reflexivity].
  - destruct Hspin as [-> | ->]; simpl in *; split; solve [assumption|reflexivity].
Qed.

Lemma get_all_singles_valid_witness :
  wf_det (apply_single_excitation_det scenario_det 0 1 3)
  /\ count (alpha (apply_single_excitation_det scenario_det 0 1 3))
     = count (alpha scenario_det)
  /\ count (beta (apply_single_excitation_det scenario_det 0 1 3))
     = count (beta scenario_det).
Proof.
  apply (get_all_singles_valid scenario_det).
  - unfold wf_det, wf; simpl; lia.
  - vm_compute. right; right; right; left; reflexivity.
Defined.

Lemma set_channel_injective d spin s t :
  set_channel d spin s = set_channel d spin t -> s = t.
Proof.
  intros H. rewrite <- (channel_set_channel_same d spin s), H.
  apply channel_set_channel_same.
Qed.

Lemma singles_of_channel_NoDup d spin :
  NoDup (get_singles_by_exc_mask d spin
           (to_constraint (channel d spin))
           (to_constraint (sd_not (channel d spin)))).
Proof.
  unfold get_singles_by_exc_mask.
  apply (NoDup_product (apply_single_excitation_det d spin));
    [apply NoDup_to_constraint|apply NoDup_to_constraint|].
  intros h p h' p' Hh Hp Hh' Hp' Heq.
  apply In_to_constraint in Hh, Hh'. apply In_to_constraint_not in Hp, Hp'.
  rewrite !apply_single_excitation_det_channel in Heq.
  apply set_channel_injective in Heq.
  apply (apply_single_excitation_injective (channel d spin)); intuition.
Qed.

(** X12.  [get_all_singles] lists no determinant twice, and never the
    source determinant itself. *)
Theorem get_all_singles_NoDup d :
  NoDup (get_all_singles d) /\ ~ In d (get_all_singles d).
Proof.
  split.
  - unfold get_all_singles. cbv zeta. apply NoDup_app.
    + apply singles_of_channel_NoDup.
    + apply singles_of_channel_NoDup.
    + intros x Ha Hb. unfold get_singles_by_exc_mask in Ha, Hb.
      apply (In_product (apply_single_excitation_det d 0)) in Ha.
      apply (In_product (apply_single_excitation_det d 1)) in Hb.
      destruct Ha as [h [p [Hh [Hp ->]]]]. destruct Hb as [h' [p' [_ [_ Heq]]]].
      apply In_to_constraint in Hh. apply In_to_constraint_not in Hp.
      apply (f_equal alpha) in Heq.
      rewrite !apply_single_excitation_det_channel in Heq. simpl in Heq.
      apply (apply_single_excitation_changes (alpha d) h p); intuition.
  - intros Hin. apply get_all_singles_elements in Hin.
    destruct Hin as [spin [h [p [Hspin [Hh [Ho [Hp [Hf Heq]]]]]]]].
    rewrite apply_single_excitation_det_channel in Heq.
    apply (f_equal (fun x => channel x spin)) in Heq.
    rewrite channel_set_channel_same in Heq. symmetry in Heq.
    apply (apply_single_excitation_changes (channel d spin) h p); intuition.
Qed.

End SinglesEnumeration.

(* ================================================================== *)
(** * Opposite-spin doubles *)
(* ================================================================== *)

Section OppositeSpinDoubles.

Lemma length_get_spin_singles_by_exc_mask d h p :
  length (get_spin_singles_by_exc_mask d h p) = (length h * length p)%nat.
Proof.
  unfold get_spin_singles_by_exc_mask. apply flat_map_constant_length.
  intros i _. apply length_map.
Qed.

Lemma In_get_spin_singles_by_exc_mask d hs ps x :
  In x (get_spin_singles_by_exc_mask d hs ps)
  <-> exists h p, In h hs /\ In p ps /\ x = apply_single_excitation d h p.
Proof.
  unfold get_spin_singles_by_exc_mask. rewrite in_flat_map. split.
  - intros [h [Hh Hx]]. apply in_map_iff in Hx. destruct Hx as [p [<- Hp]].
    now exists h, p.
  - intros [h [p [Hh [Hp ->]]]]. exists h. split; [exact Hh|].
    apply in_map_iff. now exists p.
Qed.

Lemma In_det_product (xs ys : list spin_det_t) (x : det_t) :
  In x (flat_map (fun a => map (fun b => mk_det a b) ys) xs)
  <-> In (alpha x) xs /\ In (beta x) ys.
Proof.
  rewrite in_flat_map. split.
  - intros [a [Ha Hx]]. apply in_map_iff in Hx. destruct Hx as [b [<- Hb]].
    now split.
  - intros [Ha Hb]. exists (alpha x). split; [exact Ha|].
    apply in_map_iff. exists (beta x). split; [now destruct x|exact Hb].
Qed.

Lemma length_det_product (xs ys : list spin_det_t) :
  length (flat_map (fun a => map (fun b => mk_det a b) ys) xs)
  = (length xs * length ys)%nat.
Proof. apply flat_map_constant_length. intros a _. apply length_map. Qed.

(** The number of single excitations of one channel. *)
Lemma length_spin_singles_of_channel s :
  wf s ->
  Z.of_nat (length (get_spin_singles_by_exc_mask s
                      (to_constraint s) (to_constraint (sd_not s))))
  = occ s * virt s.
Proof.
  intros Hs. rewrite length_get_spin_singles_by_exc_mask, Nat2Z.inj_mul.
  rewrite (length_to_constraint_not s Hs), (length_to_constraint s Hs).
  reflexivity.
Qed.

(** X13.  [get_os_doubles] returns
    [occ_alpha * virt_alpha * occ_beta * virt_beta] determinants. *)
Theorem get_os_doubles_count d :
  wf_det d ->
  Z.of_nat (length (get_os_doubles d))
  = occ (alpha d) * virt (alpha d) * (occ (beta d) * virt (beta d)).
Proof.
  intros [Ha [Hb _]]. unfold get_os_doubles. cbv zeta.
  change (channel d 0) with (alpha d). change (channel d 1) with (beta d).
  rewrite length_det_product, Nat2Z.inj_mul.
  now rewrite !length_spin_singles_of_channel by assumption.
Qed.

Lemma get_os_doubles_count_witness :
  length (get_os_doubles both_channels_det) = 16%nat
  /\ Z.of_nat (length (get_os_doubles both_channels_det))
     = occ (alpha both_channels_det) * virt (alpha both_channels_det)
       * (occ (beta both_channels_det) * virt (beta both_channels_det)).
Proof.
  split; [reflexivity|].
  apply (get_os_doubles_count both_channels_det).
  unfold wf_det, wf; simpl; lia.
Defined.

(** X14.  [get_os_doubles] is complete and sound: a determinant is in the
    list exactly when it is [d] with one electron moved from an occupied to
    an unoccupied alpha orbital and one from an occupied to an unoccupied beta
    orbital, that is an [apply_double_excitation] on channels 0 and 1. *)
Theorem In_get_os_doubles d x :
  In x (get_os_doubles d)
  <-> exists h1 p1 h2 p2,
        0 <= h1 < N_mos (alpha d) /\ get (alpha d) h1 = true
        /\ 0 <= p1 < N_mos (alpha d) /\ get (alpha d) p1 = false
        /\ 0 <= h2 < N_mos (beta d) /\ get (beta d) h2 = true
        /\ 0 <= p2 < N_mos (beta d) /\ get (beta d) p2 = false
        /\ x = apply_double_excitation_det d 0 1 h1 h2 p1 p2.
Proof.
  unfold get_os_doubles. cbv zeta.
  change (channel d 0) with (alpha d). change (channel d 1) with (beta d).
  rewrite In_det_product, !In_get_spin_singles_by_exc_mask. split.
  - intros [[h1 [p1 [Hh1 [Hp1 Ea]]]] [h2 [p2 [Hh2 [Hp2 Eb]]]]].
    apply In_to_constraint in Hh1, Hh2. apply In_to_constraint_not in Hp1, Hp2.
    exists h1, p1, h2, p2. repeat (split; [tauto|]).
    destruct x as [xa xb]. simpl in Ea, Eb. subst xa xb. reflexivity.
  - intros (h1 & p1 & h2 & p2 & Hh1 & Ho1 & Hp1 & Hf1 & Hh2 & Ho2 & Hp2 & Hf2 & ->).
    split.
    + exists h1, p1. split; [apply In_to_constraint; now split|].
      split; [apply In_to_constraint_not; now split|reflexivity].
    + exists h2, p2. split; [apply In_to_constraint; now split|].
      split; [apply In_to_constraint_not; now split|reflexivity].
Qed.

Lemma apply_single_excitation_void s h p :
  get s h = false -> get s p = true -> apply_single_excitation s h p = s.
Proof.
  intros Hh Hp. unfold apply_single_excitation. cbv zeta.
  rewrite (set_orb_clear_unoccupied s h Hh).
  apply set_orb_set_occupied. exact Hp.
Qed.

(** X15.  [get_constrained_os_doubles] resolves its masks as
    [get_constrained_singles] does, holes from the unoccupied and particles
    from the occupied orbitals: whatever it returns is a copy of the source
    determinant. *)
Theorem get_constrained_os_doubles_only_copies d constraint max_orb x :
  In x (get_constrained_os_doubles d constraint max_orb) -> x = d.
Proof.
  unfold get_constrained_os_doubles. cbv zeta.
  rewrite In_det_product, !In_get_spin_singles_by_exc_mask.
  intros [[h1 [p1 [Hh1 [Hp1 Ea]]]] [h2 [p2 [Hh2 [Hp2 Eb]]]]].
  apply singles_hole_unoccupied in Hh1, Hh2.
  apply singles_part_occupied in Hp1, Hp2.
  rewrite apply_single_excitation_void in Ea, Eb by assumption.
  destruct x as [xa xb], d as [da db]. simpl in *. now subst.
Qed.

Lemma get_constrained_os_doubles_only_copies_witness :
  In (mk_det scenario_alpha scenario_alpha)
     (get_constrained_os_doubles
        (mk_det scenario_alpha scenario_alpha) ([2; 3], [0; 1]) 4)
  /\ mk_det scenario_alpha scenario_alpha = mk_det scenario_alpha scenario_alpha.
Proof.
  assert (Hin : In (mk_det scenario_alpha scenario_alpha)
                  (get_constrained_os_doubles
                     (mk_det scenario_alpha scenario_alpha) ([2; 3], [0; 1]) 4))
    by (vm_compute; left; reflexivity).
  split; [exact Hin|].
  apply (get_constrained_os_doubles_only_copies
           (mk_det scenario_alpha scenario_alpha) ([2; 3], [0; 1]) 4 _ Hin).
Defined.

End OppositeSpinDoubles.

(* ================================================================== *)
(** * Mask resolution of the same-spin doubles *)
(* ================================================================== *)

Section MaskResolutionLaws.

Lemma get_spin_det_of_list n l i :
  0 <= i -> get (spin_det_of_list n l) i = existsb (Z.eqb i) l.
Proof.
  intros Hi. unfold get, spin_det_of_list. rewrite bits_fold_set_true.
  simpl bits. rewrite testbit_fold_setbit by exact Hi. now rewrite Z.bits_0.
Qed.

Lemma get_spin_det_fill n max_orb i :
  0 <= i -> get (spin_det_fill n max_orb true) i = (i <? max_orb).
Proof.
  intros Hi. unfold get, spin_det_fill, set_range. rewrite bits_fold_set_true.
  simpl bits. rewrite testbit_fold_setbit by exact Hi.
  rewrite Z.bits_0, existsb_eqb_Zrange. simpl.
  destruct (Z.leb_spec 0 i); [|lia]. simpl.
  destruct (Z.leb_spec i (max_orb - 1)), (Z.ltb_spec i max_orb);
    try reflexivity; lia.
Qed.

Lemma get_sd_and a b k : get (sd_and a b) k = get a k && get b k.
Proof. unfold get, sd_and. simpl. apply Z.land_spec. Qed.

Lemma existsb_eqb_In i l : existsb (Z.eqb i) l = true <-> In i l.
Proof.
  rewrite existsb_exists. split.
  - intros [k [Hk Heq]]. apply Z.eqb_eq in Heq. now subst.
  - intros H. exists i. split; [exact H|apply Z.eqb_refl].
Qed.

Lemma get_ss_doubles_hole_bits s n hl m i :
  0 <= i ->
  get (ss_doubles_hole_bits s (spin_det_of_list n hl) (spin_det_fill n m true)) i
  = get s i && existsb (Z.eqb i) hl && (i <? m).
Proof.
  intros Hi. unfold ss_doubles_hole_bits. rewrite !get_sd_and.
  now rewrite get_spin_det_of_list, get_spin_det_fill by exact Hi.
Qed.

Lemma get_ss_doubles_part_bits s n pl m i :
  0 <= i < N_mos s ->
  get (ss_doubles_part_bits s (spin_det_of_list n pl) (spin_det_fill n m true)) i
  = negb (get s i) && existsb (Z.eqb i) pl && (i <? m).
Proof.
  intros Hi. unfold ss_doubles_part_bits. rewrite !get_sd_and.
  now rewrite get_sd_not, get_spin_det_of_list, get_spin_det_fill by lia.
Qed.

(** X16.  Mask resolution in [get_constrained_ss_doubles]: the holes of a
    channel are exactly its occupied orbitals that are in the hole-allow list
    and below [max_orb], the particles exactly its unoccupied orbitals that
    are in the particle-allow list and below [max_orb]. *)
Theorem ss_doubles_mask_resolution s n hl pl m i :
  (In i (to_constraint
           (ss_doubles_hole_bits s (spin_det_of_list n hl) (spin_det_fill n m true)))
   <-> 0 <= i < N_mos s /\ get s i = true /\ In i hl /\ i < m)
  /\ (In i (to_constraint
              (ss_doubles_part_bits s (spin_det_of_list n pl) (spin_det_fill n m true)))
      <-> 0 <= i < N_mos s /\ get s i = false /\ In i pl /\ i < m).
Proof.
  rewrite !In_to_constraint. simpl N_mos. split; split.
  - intros [Hr Hg]. rewrite get_ss_doubles_hole_bits in Hg by lia.
    rewrite !andb_true_iff, existsb_eqb_In, Z.ltb_lt in Hg. tauto.
  - intros (Hr & Hg & Hl & Hm). split; [exact Hr|].
    rewrite get_ss_doubles_hole_bits by lia.
    rewrite !andb_true_iff, existsb_eqb_In, Z.ltb_lt. tauto.
  - intros [Hr Hg]. rewrite get_ss_doubles_part_bits in Hg by exact Hr.
    rewrite !andb_true_iff, existsb_eqb_In, Z.ltb_lt, negb_true_iff in Hg. tauto.
  - intros (Hr & Hg & Hl & Hm). split; [exact Hr|].
    rewrite get_ss_doubles_part_bits by exact Hr.
    rewrite !andb_true_iff, existsb_eqb_In, Z.ltb_lt, negb_true_iff. tauto.
Qed.

(** The listed holes and particles of [get_constrained_ss_doubles]. *)
Lemma listed_hole s n hl m h :
  In h (to_constraint
          (ss_doubles_hole_bits s (spin_det_of_list n hl) (spin_det_fill n m true)))
  <-> 0 <= h < N_mos s /\ get s h = true /\ In h hl /\ h < m.
Proof.
  rewrite In_to_constraint. simpl N_mos. split.
  - intros [Hr Hg]. rewrite get_ss_doubles_hole_bits in Hg by lia.
    rewrite !andb_true_iff, existsb_eqb_In, Z.ltb_lt in Hg. tauto.
  - intros (Hr & Hg & Hl & Hm). split; [exact Hr|].
    rewrite get_ss_doubles_hole_bits by lia.
    rewrite !andb_true_iff, existsb_eqb_In, Z.ltb_lt. tauto.
Qed.

Lemma listed_part s n pl m p :
  In p (to_constraint
          (ss_doubles_part_bits s (spin_det_of_list n pl) (spin_det_fill n m true)))
  <-> 0 <= p < N_mos s /\ get s p = false /\ In p pl /\ p < m.
Proof.
  rewrite In_to_constraint. simpl N_mos. split.
  - intros [Hr Hg]. rewrite get_ss_doubles_part_bits in Hg by exact Hr.
    rewrite !andb_true_iff, existsb_eqb_In, Z.ltb_lt, negb_true_iff in Hg. tauto.
  - intros (Hr & Hg & Hl & Hm). split; [exact Hr|].
    rewrite get_ss_doubles_part_bits by exact Hr.
    rewrite !andb_true_iff, existsb_eqb_In, Z.ltb_lt, negb_true_iff. tauto.
Qed.

(** Two ascending listings of the same orbitals are the same list. *)
Lemma to_constraint_ext s t :
  N_mos s = N_mos t ->
  (forall i, 0 <= i < N_mos s -> get s i = get t i) ->
  to_constraint s = to_constraint t.
Proof.
  intros Hn Hget. unfold to_constraint. rewrite <- Hn.
  apply filter_ext_in. intros i Hi. apply In_Zrange in Hi. apply Hget. lia.
Qed.

Lemma ss_doubles_holes_unrestricted s n hl m :
  (forall i, 0 <= i < N_mos s -> In i hl) ->
  N_mos s <= m ->
  to_constraint
    (ss_doubles_hole_bits s (spin_det_of_list n hl) (spin_det_fill n m true))
  = to_constraint s.
Proof.
  intros Hall Hm. apply to_constraint_ext; [reflexivity|].
  simpl N_mos. intros i Hi.
  unfold ss_doubles_hole_bits. rewrite !get_sd_and.
  rewrite get_spin_det_of_list, get_spin_det_fill by lia.
  rewrite (proj2 (existsb_eqb_In i hl) (Hall i Hi)).
  destruct (Z.ltb_spec i m); [|lia]. now rewrite !andb_true_r.
Qed.

Lemma ss_doubles_parts_unrestricted s n pl m :
  (forall i, 0 <= i < N_mos s -> In i pl) ->
  N_mos s <= m ->
  to_constraint
    (ss_doubles_part_bits s (spin_det_of_list n pl) (spin_det_fill n m true))
  = to_constraint (sd_not s).
Proof.
  intros Hall Hm. apply to_constraint_ext; [reflexivity|].
  simpl N_mos. intros i Hi.
  unfold ss_doubles_part_bits. rewrite !get_sd_and.
  rewrite get_spin_det_of_list, get_spin_det_fill by lia.
  rewrite (proj2 (existsb_eqb_In i pl) (Hall i Hi)).
  destruct (Z.ltb_spec i m); [|lia]. now rewrite !andb_true_r.
Qed.

(** X17.  When both allow-lists contain every orbital and the cutoff is at
    least the capacity, [get_constrained_ss_doubles] has the outcome of
    [get_ss_doubles], for every amount of fuel: the same list when the run
    returns one. *)
Theorem get_constrained_ss_doubles_unrestricted fuel d constraint max_orb :
  N_mos (alpha d) = N_mos (beta d) ->
  (forall i, 0 <= i < det_N_mos d -> In i (fst constraint)) ->
  (forall i, 0 <= i < det_N_mos d -> In i (snd constraint)) ->
  det_N_mos d <= max_orb ->
  get_constrained_ss_doubles fuel d constraint max_orb = get_ss_doubles fuel d.
Proof.
  intros Heq Hh Hp Hm. unfold det_N_mos in *.
  unfold get_constrained_ss_doubles, get_ss_doubles. cbv zeta.
  change (channel d 0) with (alpha d). change (channel d 1) with (beta d).
  assert (Hhb : forall i, 0 <= i < N_mos (beta d) -> In i (fst constraint))
    by (intros i Hi; apply Hh; lia).
  assert (Hpb : forall i, 0 <= i < N_mos (beta d) -> In i (snd constraint))
    by (intros i Hi; apply Hp; lia).
  rewrite (ss_doubles_holes_unrestricted (alpha d)) by first [exact Hh|lia].
  rewrite (ss_doubles_holes_unrestricted (beta d)) by first [exact Hhb|lia].
  rewrite (ss_doubles_parts_unrestricted (alpha d)) by first [exact Hp|lia].
  rewrite (ss_doubles_parts_unrestricted (beta d)) by first [exact Hpb|lia].
  reflexivity.
Qed.

Lemma get_constrained_ss_doubles_unrestricted_witness :
  get_constrained_ss_doubles 20 both_channels_det ([0; 1; 2; 3], [0; 1; 2; 3]) 4
  = get_ss_doubles 20 both_channels_det
  /\ get_ss_doubles 20 both_channels_det
     = Returns [mk_det (mk_spin_det 4 12) (mk_spin_det 4 6);
                mk_det (mk_spin_det 4 3) (mk_spin_det 4 9)].
Proof.
  split; [|vm_compute; reflexivity].
  apply (get_constrained_ss_doubles_unrestricted 20 both_channels_det
           ([0; 1; 2; 3], [0; 1; 2; 3]) 4).
  - reflexivity.
  - change (det_N_mos both_channels_det) with 4. simpl. lia.
  - change (det_N_mos both_channels_det) with 4. simpl. lia.
  - change (det_N_mos both_channels_det) with 4. lia.
Defined.

End MaskResolutionLaws.

(* ================================================================== *)
(** * The list of same-spin doubles *)
(* ================================================================== *)

Section SameSpinEnumeration.

Lemma StronglySorted_Zrange lo hi : StronglySorted Z.lt (Zrange lo hi).
Proof.
  unfold Zrange. generalize (Z.to_nat (hi - lo + 1)) as n. intros n.
  generalize 0%nat as a. induction n as [|n IH]; intros a; simpl.
  - constructor.
  - constructor; [apply IH|].
    apply Forall_forall. intros x Hx. apply in_map_iff in Hx.
    destruct Hx as [k [<- Hk]]. apply in_seq in Hk. lia.
Qed.

Lemma StronglySorted_filter (f : Z -> bool) l :
  StronglySorted Z.lt l -> StronglySorted Z.lt (filter f l).
Proof.
  induction 1 as [|x l Hs IH Hall]; simpl; [constructor|].
  destruct (f x); [|exact IH].
  constructor; [exact IH|].
  apply Forall_forall. intros y Hy. apply filter_In in Hy.
  rewrite Forall_forall in Hall. apply Hall. tauto.
Qed.

Lemma StronglySorted_nth l :
  StronglySorted Z.lt l ->
  forall i j, (i < j)%nat -> (j < length l)%nat -> nth i l 0 < nth j l 0.
Proof.
  induction 1 as [|x l Hs IH Hall]; intros i j Hij Hj; simpl in Hj; [lia|].
  destruct j as [|j]; [lia|]. destruct i as [|i]; simpl.
  - rewrite Forall_forall in Hall. apply Hall. apply nth_In. lia.
  - apply IH; lia.
Qed.

Lemma to_constraint_ascending s i j :
  (i < j)%nat -> (j < length (to_constraint s))%nat ->
  nth i (to_constraint s) 0 < nth j (to_constraint s) 0.
Proof.
  apply StronglySorted_nth. unfold to_constraint.
  apply StronglySorted_filter, StronglySorted_Zrange.
Qed.

(** Two listed orbitals, the smaller first, sit at increasing positions. *)
Lemma to_constraint_positions s a b :
  In a (to_constraint s) -> In b (to_constraint s) -> a < b ->
  exists i j,
    0 <= i < j /\ j < vec_size (to_constraint s)
    /\ vec_at (to_constraint s) i = a /\ vec_at (to_constraint s) j = b.
Proof.
  intros Ha Hb Hab.
  destruct (In_nth _ _ 0 Ha) as [i [Hi Ei]].
  destruct (In_nth _ _ 0 Hb) as [j [Hj Ej]].
  assert (Hij : (i < j)%nat).
  { destruct (Nat.lt_trichotomy i j) as [H|[H|H]]; [exact H| |].
    - subst j. rewrite Ei in Ej. lia.
    - pose proof (to_constraint_ascending s j i H Hi) as Hlt.
      unfold idx_t in *. rewrite Ei, Ej in Hlt. lia. }
  exists (Z.of_nat i), (Z.of_nat j). unfold vec_size, vec_at.
  rewrite !Nat2Z.id. unfold idx_t in *. repeat split; try lia; assumption.
Qed.

Lemma vec_at_In (v : spin_constraint_t) i :
  0 <= i < vec_size v -> In (vec_at v i) v.
Proof. intros Hi. unfold vec_at, vec_size in *. apply nth_In. lia. Qed.

Lemma vec_at_ascending s i j :
  0 <= i < j -> j < vec_size (to_constraint s) ->
  vec_at (to_constraint s) i < vec_at (to_constraint s) j.
Proof.
  intros Hij Hj. unfold vec_at, vec_size in *.
  apply to_constraint_ascending; lia.
Qed.

Lemma In_ss_doubles_over d spin h p x :
  In x (ss_doubles_over d spin h p)
  <-> exists i1 i2 j1 j2,
        0 <= i1 < i2 /\ i2 < vec_size h /\ 0 <= j1 < j2 /\ j2 < vec_size p
        /\ x = apply_double_excitation_det d spin spin
                 (vec_at h i1) (vec_at h i2) (vec_at p j1) (vec_at p j2).
Proof.
  unfold ss_doubles_over. rewrite in_flat_map. split.
  - intros [i1 [H1 Hx]]. apply in_flat_map in Hx. destruct Hx as [i2 [H2 Hx]].
    apply in_flat_map in Hx. destruct Hx as [j1 [H3 Hx]].
    apply in_flat_map in Hx. destruct Hx as [j2 [H4 Hx]].
    apply In_Zrange in H1, H2, H3, H4. destruct Hx as [<-|[]].
    exists i1, i2, j1, j2. repeat split; lia.
  - intros (i1 & i2 & j1 & j2 & H1 & H2 & H3 & H4 & ->).
    exists i1. split; [apply In_Zrange; lia|].
    apply in_flat_map. exists i2. split; [apply In_Zrange; lia|].
    apply in_flat_map. exists j1. split; [apply In_Zrange; lia|].
    apply in_flat_map. exists j2. split; [apply In_Zrange; lia|].
    now left.
Qed.

(** The same-spin doubles of one channel, as listed. *)
Lemma In_ss_doubles_of_channel d spin x :
  In x (ss_doubles_over d spin (to_constraint (channel d spin))
          (to_constraint (sd_not (channel d spin))))
  <-> exists h1 h2 p1 p2,
        h1 < h2 /\ p1 < p2
        /\ 0 <= h1 /\ h2 < N_mos (channel d spin)
        /\ 0 <= p1 /\ p2 < N_mos (channel d spin)
        /\ get (channel d spin) h1 = true /\ get (channel d spin) h2 = true
        /\ get (channel d spin) p1 = false /\ get (channel d spin) p2 = false
        /\ x = apply_double_excitation_det d spin spin h1 h2 p1 p2.
Proof.
  set (s := channel d spin). rewrite In_ss_doubles_over. split.
  - intros (i1 & i2 & j1 & j2 & H1 & H2 & H3 & H4 & ->).
    pose proof (vec_at_In (to_constraint s) i1 ltac:(lia)) as A1.
    pose proof (vec_at_In (to_constraint s) i2 ltac:(lia)) as A2.
    pose proof (vec_at_In (to_constraint (sd_not s)) j1 ltac:(lia)) as B1.
    pose proof (vec_at_In (to_constraint (sd_not s)) j2 ltac:(lia)) as B2.
    pose proof (vec_at_ascending s i1 i2 H1 H2) as L1.
    pose proof (vec_at_ascending (sd_not s) j1 j2 H3 H4) as L2.
    apply In_to_constraint in A1, A2. apply In_to_constraint_not in B1, B2.
    eexists _, _, _, _. repeat split; [exact L1|exact L2|..]; tauto || lia.
  - intros (h1 & h2 & p1 & p2 & Lh & Lp & R1 & R2 & R3 & R4 & O1 & O2 & F1 & F2 & ->).
    destruct (to_constraint_positions s h1 h2) as (i1 & i2 & Hi & Hi2 & E1 & E2);
      [apply In_to_constraint; split; [lia|exact O1]
      |apply In_to_constraint; split; [lia|exact O2]|exact Lh|].
    destruct (to_constraint_positions (sd_not s) p1 p2) as (j1 & j2 & Hj & Hj2 & E3 & E4);
      [apply In_to_constraint_not; split; [lia|exact F1]
      |apply In_to_constraint_not; split; [lia|exact F2]|exact Lp|].
    exists i1, i2, j1, j2. rewrite E1, E2, E3, E4. repeat split; lia.
Qed.

Lemma vec_size_to_constraint s : vec_size (to_constraint s) <= Z.max 0 (N_mos s).
Proof.
  unfold vec_size, to_constraint.
  pose proof (filter_length_le (get s) (Zrange 0 (N_mos s - 1))) as H.
  rewrite length_Zrange in H. lia.
Qed.

(** A partly filled channel lists at least one hole and one particle, and
    at most [N_mos] of each. *)
Lemma partly_filled_sizes s :
  wf s -> partly_filled s ->
  1 <= vec_size (to_constraint s) <= N_mos s
  /\ 1 <= vec_size (to_constraint (sd_not s)) <= N_mos s.
Proof.
  intros Hwf [Ho Hv]. unfold occ, virt in *.
  pose proof (length_to_constraint s Hwf) as H1.
  pose proof (length_to_constraint_not s Hwf) as H2.
  unfold vec_size. unfold idx_t in *. lia.
Qed.

(** A channel without electrons lists no hole. *)
Lemma to_constraint_no_electron s :
  wf s -> occ s = 0 -> to_constraint s = @nil idx_t.
Proof.
  intros Hwf Ho. pose proof (length_to_constraint s Hwf) as Hl.
  unfold occ in Ho. destruct (to_constraint s); [reflexivity|].
  simpl length in Hl. lia.
Qed.

(** With a hole and a particle to start from in each channel, every loop
    bound is an ordinary number and the counters stay below it. *)
Lemma get_ss_doubles_runs fuel d :
  wf_det d -> det_N_mos d <= INT_MAX ->
  partly_filled (alpha d) -> partly_filled (beta d) ->
  det_N_mos d < Z.of_nat fuel ->
  get_ss_doubles fuel d
  = Returns (ss_doubles_over d 0 (to_constraint (channel d 0))
               (to_constraint (sd_not (channel d 0)))
             ++ ss_doubles_over d 1 (to_constraint (channel d 1))
                  (to_constraint (sd_not (channel d 1)))).
Proof.
  intros (Wa & Wb & Heq) Hmax Pa Pb Hfuel. unfold det_N_mos in *.
  unfold get_ss_doubles. cbv zeta.
  change (channel d 0) with (alpha d). change (channel d 1) with (beta d).
  destruct (partly_filled_sizes _ Wa Pa) as [A1 A2].
  destruct (partly_filled_sizes _ Wb Pb) as [B1 B2].
  rewrite !get_ss_doubles_by_exc_mask_runs by lia.
  reflexivity.
Qed.

(** X25.  For a valid determinant of at most [INT_MAX] orbitals whose two
    channels each hold at least one electron and one vacancy,
    [get_ss_doubles] returns, and the number of determinants it returns is
    [C(occ, 2) * C(virt, 2)] for the alpha channel plus the same for the beta
    channel.  A channel with a single electron or a single vacancy
    contributes none. *)
Theorem get_ss_doubles_count_partly_filled d :
  wf_det d -> det_N_mos d <= INT_MAX ->
  partly_filled (alpha d) -> partly_filled (beta d) ->
  exists fuel0, forall fuel, (fuel0 <= fuel)%nat ->
  exists l,
    get_ss_doubles fuel d = Returns l /\
    length l
    = (binom (Z.to_nat (occ (alpha d))) 2 * binom (Z.to_nat (virt (alpha d))) 2
       + binom (Z.to_nat (occ (beta d))) 2 * binom (Z.to_nat (virt (beta d))) 2)%nat.
Proof.
  intros Hwf Hmax Pa Pb. exists (S (Z.to_nat (det_N_mos d))). intros fuel Hfuel.
  eexists. split; [apply get_ss_doubles_runs; solve [assumption|lia]|].
  destruct Hwf as (Ha & Hb & _).
  rewrite length_app, !length_ss_doubles_over.
  change (channel d 0) with (alpha d). change (channel d 1) with (beta d).
  unfold occ, virt.
  rewrite <- (length_to_constraint_not (alpha d) Ha).
  rewrite <- (length_to_constraint_not (beta d) Hb).
  rewrite <- (length_to_constraint (alpha d) Ha).
  rewrite <- (length_to_constraint (beta d) Hb).
  now rewrite !Nat2Z.id.
Qed.

Lemma get_ss_doubles_count_partly_filled_witness :
  exists fuel0, forall fuel, (fuel0 <= fuel)%nat ->
  exists l, get_ss_doubles fuel both_channels_det = Returns l /\ length l = 2%nat.
Proof.
  apply (get_ss_doubles_count_partly_filled both_channels_det).
  - unfold wf_det, wf; simpl; lia.
  - unfold det_N_mos, INT_MAX; simpl; lia.
  - split; reflexivity.
  - split; reflexivity.
Defined.

(** X26.  When a channel of [d] holds no electron, [get_ss_doubles] returns
    no list, whatever the fuel: the hole list of that channel is empty, the
    loop bound [h.size() - 1] is [2 ^ 64 - 1], and the [int] counter cannot
    reach the end of the loop without overflowing. *)
Theorem get_ss_doubles_empty_channel d :
  wf_det d ->
  occ (alpha d) = 0 \/ occ (beta d) = 0 ->
  forall fuel l, get_ss_doubles fuel d <> Returns l.
Proof.
  intros (Wa & Wb & _) Hempty fuel l. unfold get_ss_doubles. cbv zeta.
  change (channel d 0) with (alpha d). change (channel d 1) with (beta d).
  unfold append_results. destruct Hempty as [H0|H0].
  - rewrite (to_constraint_no_electron _ Wa H0).
    pose proof (get_ss_doubles_by_exc_mask_no_hole fuel d 0
                  (to_constraint (sd_not (alpha d)))) as [Hno _].
    destruct (get_ss_doubles_by_exc_mask fuel d 0 _ _);
      try discriminate.
    exfalso. exact (Hno _ eq_refl).
  - rewrite (to_constraint_no_electron _ Wb H0).
    pose proof (get_ss_doubles_by_exc_mask_no_hole fuel d 1
                  (to_constraint (sd_not (beta d)))) as [Hno _].
    destruct (get_ss_doubles_by_exc_mask fuel d 0 _ _); try discriminate.
    destruct (get_ss_doubles_by_exc_mask fuel d 1 _ _);
      try discriminate.
    exfalso. exact (Hno _ eq_refl).
Qed.

Lemma get_ss_doubles_empty_channel_witness :
  occ (alpha (mk_det (spin_det_empty 4) scenario_alpha)) = 0
  /\ forall fuel l,
       get_ss_doubles fuel (mk_det (spin_det_empty 4) scenario_alpha)
       <> Returns l.
Proof.
  split; [reflexivity|].
  apply (get_ss_doubles_empty_channel (mk_det (spin_det_empty 4) scenario_alpha)).
  - unfold wf_det, wf; simpl; lia.
  - left; reflexivity.
Defined.

(** X18.  For a valid determinant of at most [INT_MAX] orbitals whose two
    channels each hold at least one electron and one vacancy,
    [get_ss_doubles] is complete and sound: it returns, and a determinant is
    in the result exactly when it is a double excitation of [d] within
    channel 0 or 1, from occupied orbitals [h1 < h2] to unoccupied orbitals
    [p1 < p2]. *)
Theorem In_get_ss_doubles d :
  wf_det d -> det_N_mos d <= INT_MAX ->
  partly_filled (alpha d) -> partly_filled (beta d) ->
  exists fuel0, forall fuel, (fuel0 <= fuel)%nat ->
  exists l,
    get_ss_doubles fuel d = Returns l /\
    forall x,
      In x l
      <-> exists spin h1 h2 p1 p2,
            (spin = 0 \/ spin = 1)
            /\ h1 < h2 /\ p1 < p2
            /\ 0 <= h1 /\ h2 < N_mos (channel d spin)
            /\ 0 <= p1 /\ p2 < N_mos (channel d spin)
            /\ get (channel d spin) h1 = true /\ get (channel d spin) h2 = true
            /\ get (channel d spin) p1 = false /\ get (channel d spin) p2 = false
            /\ x = apply_double_excitation_det d spin spin h1 h2 p1 p2.
Proof.
  intros Hwf Hmax Pa Pb. exists (S (Z.to_nat (det_N_mos d))). intros fuel Hfuel.
  eexists. split; [apply get_ss_doubles_runs; solve [assumption|lia]|].
  intros x. rewrite in_app_iff, !In_ss_doubles_of_channel. split.
  - intros [H|H]; destruct H as (h1 & h2 & p1 & p2 & H);
      [exists 0, h1, h2, p1, p2|exists 1, h1, h2, p1, p2]; tauto.
  - intros (spin & h1 & h2 & p1 & p2 & [-> | ->] & H);
      [left|right]; exists h1, h2, p1, p2; exact H.
Qed.

Lemma In_get_ss_doubles_witness :
  exists fuel0, forall fuel, (fuel0 <= fuel)%nat ->
  exists l,
    get_ss_doubles fuel both_channels_det = Returns l /\
    forall x,
      In x l
      <-> exists spin h1 h2 p1 p2,
            (spin = 0 \/ spin = 1)
            /\ h1 < h2 /\ p1 < p2
            /\ 0 <= h1 /\ h2 < N_mos (channel both_channels_det spin)
            /\ 0 <= p1 /\ p2 < N_mos (channel both_channels_det spin)
            /\ get (channel both_channels_det spin) h1 = true
            /\ get (channel both_channels_det spin) h2 = true
            /\ get (channel both_channels_det spin) p1 = false
            /\ get (channel both_channels_det spin) p2 = false
            /\ x = apply_double_excitation_det both_channels_det spin spin
                     h1 h2 p1 p2.
Proof.
  apply (In_get_ss_doubles both_channels_det).
  - unfold wf_det, wf; simpl; lia.
  - unfold det_N_mos, INT_MAX; simpl; lia.
  - split; reflexivity.
  - split; reflexivity.
Defined.

(** X19.  For a valid determinant of at most [INT_MAX] orbitals whose two
    channels each hold at least one electron and one vacancy, every
    determinant [get_ss_doubles] generates is valid and has the electron
    count of the source in each channel. *)
Theorem get_ss_doubles_valid d :
  wf_det d -> det_N_mos d <= INT_MAX ->
  partly_filled (alpha d) -> partly_filled (beta d) ->
  exists fuel0, forall fuel, (fuel0 <= fuel)%nat ->
  exists l,
    get_ss_doubles fuel d = Returns l /\
    forall x, In x l ->
      wf_det x
      /\ count (alpha x) = count (alpha d)
      /\ count (beta x) = count (beta d).
Proof.
  intros Hwf Hmax Pa Pb.
  exists (S (Z.to_nat (det_N_mos d))). intros fuel Hfuel.
  eexists. split; [apply get_ss_doubles_runs; solve [assumption|lia]|].
  clear Hfuel Hmax Pa Pb.
  intros x Hx. apply in_app_iff in Hx.
  assert (Hgen : forall spin, spin = 0 \/ spin = 1 ->
            In x (ss_doubles_over d spin (to_constraint (channel d spin))
                    (to_constraint (sd_not (channel d spin)))) ->
            wf_det x /\ count (alpha x) = count (alpha d)
            /\ count (beta x) = count (beta d)).
  { intros spin Hspin Hin. apply In_ss_doubles_of_channel in Hin.
    destruct Hin as (h1 & h2 & p1 & p2 & Lh & Lp & R1 & R2 & R3 & R4
                     & O1 & O2 & F1 & F2 & ->).
    rewrite apply_double_excitation_det_same_spin.
    assert (Hc : wf (channel d spin)).
    { destruct Hwf as [Wa [Wb _]]. destruct Hspin as [-> | ->]; assumption. }
    destruct (apply_double_excitation_valid (channel d spin) h1 h2 p1 p2)
      as [Hv Hcount]; try assumption; try lia.
    split.
    - apply wf_det_set_channel; [exact Hwf|exact Hv|reflexivity].
    - clear - Hspin Hcount.
      destruct Hspin as [-> | ->]; split; solve [exact Hcount|reflexivity]. }
  destruct Hx as [Hx|Hx];
    [apply (Hgen 0); [now left|exact Hx]|apply (Hgen 1); [now right|exact Hx]].
Qed.

Lemma get_ss_doubles_valid_witness :
  exists fuel0, forall fuel, (fuel0 <= fuel)%nat ->
  exists l,
    get_ss_doubles fuel both_channels_det = Returns l /\
    forall x, In x l ->
      wf_det x
      /\ count (alpha x) = count (alpha both_channels_det)
      /\ count (beta x) = count (beta both_channels_det).
Proof.
  apply (get_ss_doubles_valid both_channels_det).
  - unfold wf_det, wf; simpl; lia.
  - unfold det_N_mos, INT_MAX; simpl; lia.
  - split; reflexivity.
  - split; reflexivity.
Defined.

End SameSpinEnumeration.

(* ================================================================== *)
(** * The list of constrained same-spin doubles *)
(* ================================================================== *)

Section ConstrainedSameSpin.

(** The pairs-of-pairs enumeration over two ascending orbital listings. *)
Lemma In_ss_doubles_over_listed d spin sh sp x :
  In x (ss_doubles_over d spin (to_constraint sh) (to_constraint sp))
  <-> exists h1 h2 p1 p2,
        h1 < h2 /\ p1 < p2
        /\ In h1 (to_constraint sh) /\ In h2 (to_constraint sh)
        /\ In p1 (to_constraint sp) /\ In p2 (to_constraint sp)
        /\ x = apply_double_excitation_det d spin spin h1 h2 p1 p2.
Proof.
  rewrite In_ss_doubles_over. split.
  - intros (i1 & i2 & j1 & j2 & H1 & H2 & H3 & H4 & ->).
    exists (vec_at (to_constraint sh) i1), (vec_at (to_constraint sh) i2),
           (vec_at (to_constraint sp) j1), (vec_at (to_constraint sp) j2).
    split; [now apply vec_at_ascending|].
    split; [now apply vec_at_ascending|].
    repeat split; apply vec_at_In; lia.
  - intros (h1 & h2 & p1 & p2 & Lh & Lp & A1 & A2 & B1 & B2 & ->).
    destruct (to_constraint_positions sh h1 h2 A1 A2 Lh)
      as (i1 & i2 & Hi & Hi2 & E1 & E2).
    destruct (to_constraint_positions sp p1 p2 B1 B2 Lp)
      as (j1 & j2 & Hj & Hj2 & E3 & E4).
    exists i1, i2, j1, j2. rewrite E1, E2, E3, E4. repeat split; lia.
Qed.

(** A list with an element has a size of at least one. *)
Lemma vec_size_inhabited (v : spin_constraint_t) i : In i v -> 1 <= vec_size v.
Proof.
  unfold vec_size. destruct v as [|a v]; [intros []|intros _].
  simpl length. lia.
Qed.

Lemma get_ss_doubles_by_exc_mask_listed fuel d spin sh sp :
  N_mos sh <= INT_MAX -> N_mos sp <= INT_MAX ->
  (exists h, In h (to_constraint sh)) ->
  (exists p, In p (to_constraint sp)) ->
  N_mos sh < Z.of_nat fuel -> N_mos sp < Z.of_nat fuel ->
  get_ss_doubles_by_exc_mask fuel d spin (to_constraint sh) (to_constraint sp)
  = Returns (ss_doubles_over d spin (to_constraint sh) (to_constraint sp)).
Proof.
  intros Hh Hp [h Hinh] [p Hinp] Hfh Hfp.
  pose proof (vec_size_to_constraint sh). pose proof (vec_size_to_constraint sp).
  pose proof (vec_size_inhabited _ _ Hinh). pose proof (vec_size_inhabited _ _ Hinp).
  apply get_ss_doubles_by_exc_mask_runs; lia.
Qed.

Lemma get_constrained_ss_doubles_runs fuel d constraint max_orb :
  N_mos (alpha d) <= INT_MAX -> N_mos (beta d) <= INT_MAX ->
  (forall spin, spin = 0 \/ spin = 1 ->
     (exists h, 0 <= h < N_mos (channel d spin)
                /\ get (channel d spin) h = true
                /\ In h (fst constraint) /\ h < max_orb)
     /\ (exists p, 0 <= p < N_mos (channel d spin)
                   /\ get (channel d spin) p = false
                   /\ In p (snd constraint) /\ p < max_orb)) ->
  N_mos (alpha d) < Z.of_nat fuel -> N_mos (beta d) < Z.of_nat fuel ->
  exists l0 l1,
    get_constrained_ss_doubles fuel d constraint max_orb = Returns (l0 ++ l1)
    /\ l0 = ss_doubles_over d 0
              (to_constraint (ss_doubles_hole_bits (channel d 0)
                 (spin_det_of_list (det_N_mos d) (fst constraint))
                 (spin_det_fill (det_N_mos d) max_orb true)))
              (to_constraint (ss_doubles_part_bits (channel d 0)
                 (spin_det_of_list (det_N_mos d) (snd constraint))
                 (spin_det_fill (det_N_mos d) max_orb true)))
    /\ l1 = ss_doubles_over d 1
              (to_constraint (ss_doubles_hole_bits (channel d 1)
                 (spin_det_of_list (det_N_mos d) (fst constraint))
                 (spin_det_fill (det_N_mos d) max_orb true)))
              (to_constraint (ss_doubles_part_bits (channel d 1)
                 (spin_det_of_list (det_N_mos d) (snd constraint))
                 (spin_det_fill (det_N_mos d) max_orb true))).
Proof.
  intros Ha Hb Hsome Hfa Hfb. unfold get_constrained_ss_doubles. cbv zeta.
  destruct (Hsome 0 (or_introl eq_refl)) as [[ha Hha] [pa Hpa]].
  destruct (Hsome 1 (or_intror eq_refl)) as [[hb Hhb] [pb Hpb]].
  rewrite (get_ss_doubles_by_exc_mask_listed fuel d 0);
    [|exact Ha|exact Ha
     |exists ha; apply listed_hole; exact Hha
     |exists pa; apply listed_part; exact Hpa
     |exact Hfa|exact Hfa].
  rewrite (get_ss_doubles_by_exc_mask_listed fuel d 1);
    [|exact Hb|exact Hb
     |exists hb; apply listed_hole; exact Hhb
     |exists pb; apply listed_part; exact Hpb
     |exact Hfb|exact Hfb].
  eexists _, _. split; [reflexivity|]. split; reflexivity.
Qed.

(** X24.  When each channel of [d] has an occupied orbital that is in the
    hole-allow list and below [max_orb], and an unoccupied one that is in the
    particle-allow list and below [max_orb] (and there are at most [INT_MAX]
    orbitals), [get_constrained_ss_doubles] is complete and sound: it
    returns, and a determinant is in the result exactly when it is a double
    excitation of [d] within channel 0 or 1, from occupied orbitals [h1 < h2]
    that are in the hole-allow list and below [max_orb] to unoccupied
    orbitals [p1 < p2] that are in the particle-allow list and below
    [max_orb]. *)
Theorem In_get_constrained_ss_doubles d constraint max_orb :
  N_mos (alpha d) <= INT_MAX -> N_mos (beta d) <= INT_MAX ->
  (forall spin, spin = 0 \/ spin = 1 ->
     (exists h, 0 <= h < N_mos (channel d spin)
                /\ get (channel d spin) h = true
                /\ In h (fst constraint) /\ h < max_orb)
     /\ (exists p, 0 <= p < N_mos (channel d spin)
                   /\ get (channel d spin) p = false
                   /\ In p (snd constraint) /\ p < max_orb)) ->
  exists fuel0, forall fuel, (fuel0 <= fuel)%nat ->
  exists l,
    get_constrained_ss_doubles fuel d constraint max_orb = Returns l /\
    forall x,
      In x l
      <-> exists spin h1 h2 p1 p2,
            (spin = 0 \/ spin = 1)
            /\ h1 < h2 /\ p1 < p2
            /\ (forall h, h = h1 \/ h = h2 ->
                  0 <= h < N_mos (channel d spin) /\ get (channel d spin) h = true
                  /\ In h (fst constraint) /\ h < max_orb)
            /\ (forall p, p = p1 \/ p = p2 ->
                  0 <= p < N_mos (channel d spin) /\ get (channel d spin) p = false
                  /\ In p (snd constraint) /\ p < max_orb)
            /\ x = apply_double_excitation_det d spin spin h1 h2 p1 p2.
Proof.
  intros Ha Hb Hsome.
  exists (S (Z.to_nat (Z.max (N_mos (alpha d)) (N_mos (beta d))))).
  intros fuel Hfuel.
  destruct (get_constrained_ss_doubles_runs fuel d constraint max_orb Ha Hb Hsome)
    as (l0 & l1 & Hrun & -> & ->); [lia|lia|].
  eexists. split; [exact Hrun|].
  clear Hfuel Hrun Hsome.
  intros x. rewrite in_app_iff, !In_ss_doubles_over_listed.
  assert (Hchan : forall spin,
            (exists h1 h2 p1 p2,
               h1 < h2 /\ p1 < p2
               /\ In h1 (to_constraint (ss_doubles_hole_bits (channel d spin)
                           (spin_det_of_list (det_N_mos d) (fst constraint))
                           (spin_det_fill (det_N_mos d) max_orb true)))
               /\ In h2 (to_constraint (ss_doubles_hole_bits (channel d spin)
                           (spin_det_of_list (det_N_mos d) (fst constraint))
                           (spin_det_fill (det_N_mos d) max_orb true)))
               /\ In p1 (to_constraint (ss_doubles_part_bits (channel d spin)
                           (spin_det_of_list (det_N_mos d) (snd constraint))
                           (spin_det_fill (det_N_mos d) max_orb true)))
               /\ In p2 (to_constraint (ss_doubles_part_bits (channel d spin)
                           (spin_det_of_list (det_N_mos d) (snd constraint))
                           (spin_det_fill (det_N_mos d) max_orb true)))
               /\ x = apply_double_excitation_det d spin spin h1 h2 p1 p2)
            <-> exists h1 h2 p1 p2,
                  h1 < h2 /\ p1 < p2
                  /\ (forall h, h = h1 \/ h = h2 ->
                        0 <= h < N_mos (channel d spin)
                        /\ get (channel d spin) h = true
                        /\ In h (fst constraint) /\ h < max_orb)
                  /\ (forall p, p = p1 \/ p = p2 ->
                        0 <= p < N_mos (channel d spin)
                        /\ get (channel d spin) p = false
                        /\ In p (snd constraint) /\ p < max_orb)
                  /\ x = apply_double_excitation_det d spin spin h1 h2 p1 p2).
  { intros spin. split.
    - intros (h1 & h2 & p1 & p2 & Lh & Lp & A1 & A2 & B1 & B2 & E).
      apply listed_hole in A1, A2. apply listed_part in B1, B2.
      exists h1, h2, p1, p2. repeat (split; [assumption|]).
      split; [intros h [-> | ->]; assumption|].
      split; [intros p [-> | ->]; assumption|exact E].
    - intros (h1 & h2 & p1 & p2 & Lh & Lp & Hh & Hp & E).
      exists h1, h2, p1, p2. repeat (split; [assumption|]).
      split; [apply listed_hole, Hh; now left|].
      split; [apply listed_hole, Hh; now right|].
      split; [apply listed_part, Hp; now left|].
      split; [apply listed_part, Hp; now right|exact E]. }
  rewrite !Hchan. split.
  - intros [H|H]; destruct H as (h1 & h2 & p1 & p2 & H);
      [exists 0, h1, h2, p1, p2|exists 1, h1, h2, p1, p2];
      (split; [auto|exact H]).
  - intros (spin & h1 & h2 & p1 & p2 & [-> | ->] & H);
      [left|right]; exists h1, h2, p1, p2; exact H.
Qed.

Lemma In_get_constrained_ss_doubles_witness :
  exists fuel0, forall fuel, (fuel0 <= fuel)%nat ->
  exists l,
    get_constrained_ss_doubles fuel both_channels_det ([0; 1; 2], [0; 2; 3]) 4
    = Returns l /\
    forall x,
      In x l
      <-> exists spin h1 h2 p1 p2,
            (spin = 0 \/ spin = 1)
            /\ h1 < h2 /\ p1 < p2
            /\ (forall h, h = h1 \/ h = h2 ->
                  0 <= h < N_mos (channel both_channels_det spin)
                  /\ get (channel both_channels_det spin) h = true
                  /\ In h (fst ([0; 1; 2], [0; 2; 3])) /\ h < 4)
            /\ (forall p, p = p1 \/ p = p2 ->
                  0 <= p < N_mos (channel both_channels_det spin)
                  /\ get (channel both_channels_det spin) p = false
                  /\ In p (snd ([0; 1; 2], [0; 2; 3])) /\ p < 4)
            /\ x = apply_double_excitation_det both_channels_det spin spin
                     h1 h2 p1 p2.
Proof.
  apply (In_get_constrained_ss_doubles both_channels_det
           ([0; 1; 2], [0; 2; 3]) 4).
  - unfold INT_MAX; simpl; lia.
  - unfold INT_MAX; simpl; lia.
  - intros spin [-> | ->]; split.
    + exists 1. simpl. repeat split; auto; lia.
    + exists 2. simpl. repeat split; auto; lia.
    + exists 1. simpl. repeat split; auto; lia.
    + exists 0. simpl. repeat split; auto; lia.
Defined.

End ConstrainedSameSpin.

(* ================================================================== *)
(** * All connected determinants *)
(* ================================================================== *)

Section ConnectedDeterminants.

Lemma length_get_all_singles d :
  wf_det d ->
  Z.of_nat (length (get_all_singles d))
  = occ (alpha d) * virt (alpha d) + occ (beta d) * virt (beta d).
Proof.
  intros [Ha [Hb _]]. unfold get_all_singles, occ, virt.
  change (channel d 0) with (alpha d). change (channel d 1) with (beta d).
  rewrite length_app, !length_get_singles_by_exc_mask.
  rewrite Nat2Z.inj_add, !Nat2Z.inj_mul.
  rewrite (length_to_constraint_not (alpha d)) by exact Ha.
  rewrite (length_to_constraint_not (beta d)) by exact Hb.
  rewrite (length_to_constraint (alpha d)) by exact Ha.
  rewrite (length_to_constraint (beta d)) by exact Hb.
  reflexivity.
Qed.

Lemma length_ss_doubles_of_channel d spin s :
  wf s ->
  length (ss_doubles_over d spin (to_constraint s) (to_constraint (sd_not s)))
  = (binom (Z.to_nat (occ s)) 2 * binom (Z.to_nat (virt s)) 2)%nat.
Proof.
  intros Hs. rewrite length_ss_doubles_over. unfold occ, virt.
  rewrite <- (length_to_constraint_not s Hs), <- (length_to_constraint s Hs).
  now rewrite !Nat2Z.id.
Qed.

(** X20.  For a valid determinant of at most [INT_MAX] orbitals whose two
    channels each hold at least one electron and one vacancy,
    [get_all_connected_dets] returns the singles, then the same-spin doubles,
    then the opposite-spin doubles, and their number is the sum of the three
    counts. *)
Theorem get_all_connected_dets_count d :
  wf_det d -> det_N_mos d <= INT_MAX ->
  partly_filled (alpha d) -> partly_filled (beta d) ->
  exists fuel0, forall fuel, (fuel0 <= fuel)%nat ->
  exists ss,
    get_ss_doubles fuel d = Returns ss
    /\ get_all_connected_dets fuel d
       = Returns (get_all_singles d ++ ss ++ get_os_doubles d)
    /\ Z.of_nat (length (get_all_singles d ++ ss ++ get_os_doubles d))
       = occ (alpha d) * virt (alpha d) + occ (beta d) * virt (beta d)
         + Z.of_nat (binom (Z.to_nat (occ (alpha d))) 2
                     * binom (Z.to_nat (virt (alpha d))) 2
                     + binom (Z.to_nat (occ (beta d))) 2
                       * binom (Z.to_nat (virt (beta d))) 2)
         + occ (alpha d) * virt (alpha d) * (occ (beta d) * virt (beta d)).
Proof.
  intros Hwf Hmax Pa Pb.
  exists (S (Z.to_nat (det_N_mos d))). intros fuel Hfuel.
  pose proof (get_ss_doubles_runs fuel d Hwf Hmax Pa Pb ltac:(lia)) as Hrun.
  eexists. split; [exact Hrun|]. split.
  - unfold get_all_connected_dets. cbv zeta. now rewrite Hrun.
  - clear Hrun Hfuel Hmax Pa Pb.
    rewrite !length_app, !Nat2Z.inj_add.
    rewrite length_get_all_singles by exact Hwf.
    unfold get_os_doubles. cbv zeta.
    change (channel d 0) with (alpha d). change (channel d 1) with (beta d).
    rewrite length_det_product, Nat2Z.inj_mul.
    rewrite !length_spin_singles_of_channel by apply Hwf.
    rewrite !length_ss_doubles_of_channel by apply Hwf.
    lia.
Qed.

Lemma get_all_connected_dets_count_witness :
  exists fuel0, forall fuel, (fuel0 <= fuel)%nat ->
  exists ss,
    get_ss_doubles fuel both_channels_det = Returns ss
    /\ get_all_connected_dets fuel both_channels_det
       = Returns (get_all_singles both_channels_det ++ ss
                  ++ get_os_doubles both_channels_det)
    /\ Z.of_nat (length (get_all_singles both_channels_det ++ ss
                         ++ get_os_doubles both_channels_det))
       = 26.
Proof.
  apply (get_all_connected_dets_count both_channels_det).
  - unfold wf_det, wf; simpl; lia.
  - unfold det_N_mos, INT_MAX; simpl; lia.
  - split; reflexivity.
  - split; reflexivity.
Defined.

(** X21.  The channel [spin] of the determinants of
    [get_singles_by_exc_mask] is the list [get_spin_singles_by_exc_mask]
    gives on that channel, and their other channel is the one of [d]. *)
Theorem get_singles_by_exc_mask_channels d spin h p :
  spin = 0 \/ spin = 1 ->
  map (fun x => channel x spin) (get_singles_by_exc_mask d spin h p)
  = get_spin_singles_by_exc_mask (channel d spin) h p
  /\ forall x, In x (get_singles_by_exc_mask d spin h p) ->
               channel x (1 - spin) = channel d (1 - spin).
Proof.
  intros Hspin. split.
  - unfold get_singles_by_exc_mask, get_spin_singles_by_exc_mask.
    induction h as [|i h IH]; [reflexivity|].
    simpl. rewrite map_app, IH. f_equal.
    rewrite map_map. apply map_ext. intros j.
    rewrite apply_single_excitation_det_channel.
    apply channel_set_channel_same.
  - intros x Hx. apply In_get_singles_by_exc_mask in Hx.
    destruct Hx as [i [j [_ [_ ->]]]].
    rewrite apply_single_excitation_det_channel.
    now apply channel_set_channel_other.
Qed.

Lemma get_singles_by_exc_mask_channels_witness :
  map (fun x => channel x 0) (get_singles_by_exc_mask scenario_det 0 [0; 1] [2; 3])
  = get_spin_singles_by_exc_mask (channel scenario_det 0) [0; 1] [2; 3]
  /\ forall x, In x (get_singles_by_exc_mask scenario_det 0 [0; 1] [2; 3]) ->
               channel x (1 - 0) = channel scenario_det (1 - 0).
Proof.
  apply (get_singles_by_exc_mask_channels scenario_det 0 [0; 1] [2; 3]).
  left; reflexivity.
Defined.

End ConnectedDeterminants.

(* ================================================================== *)
(** * Element-wise array operations: properties *)
(* ================================================================== *)

Section LArrayProperties.

Context {T : Type}.

Lemma for_loop_state_exit {S : Type} fuel cond (body : Z -> S -> S) i s :
  (0 < fuel)%nat -> cond i = false -> for_loop_state fuel cond body i s = Some s.
Proof.
  intros Hfuel Hcond. destruct fuel as [|fuel]; [lia|]. simpl. now rewrite Hcond.
Qed.

(** The loop [c[i] = f(i, memory)] from [i] up to [N], when no cell read at
    a later index has been written at an earlier one. *)
Lemma write_loop_from (rd : Z -> @memory T -> T) (c N : Z) :
  N <= INT_MAX ->
  (forall (m : @memory T) j v k,
     0 <= j < k -> k < N -> rd k (store m (c + j) v) = rd k m) ->
  forall n i fuel (m : @memory T),
  0 <= i <= N -> Z.of_nat n = N - i -> (n < fuel)%nat ->
  exists m',
    for_loop_state fuel (fun i => i <? N)
      (fun i m => store m (c + i) (rd i m)) i m = Some m'
    /\ forall x,
         m' x = if (c + i <=? x) && (x <? c + N) then rd (x - c) m else m x.
Proof.
  intros HN Hrd. unfold INT_MAX in HN.
  induction n as [|n IH]; intros i fuel m Hi Hn Hfuel.
  - assert (i = N) by lia. subst i. exists m. split.
    + apply for_loop_state_exit; [lia|apply Z.ltb_irrefl].
    + intros x. destruct (Z.leb_spec (c + N) x), (Z.ltb_spec x (c + N));
        try reflexivity; lia.
  - destruct fuel as [|fuel]; [lia|]. simpl.
    destruct (Z.ltb_spec i N); [|lia].
    rewrite wrap_int_small by lia.
    destruct (IH (i + 1) fuel (store m (c + i) (rd i m))) as [m' [Hrun Hm']];
      try lia.
    exists m'. split; [exact Hrun|].
    intros x. rewrite Hm'. unfold store at 2.
    destruct (Z.leb_spec (c + (i + 1)) x), (Z.ltb_spec x (c + N)),
             (Z.leb_spec (c + i) x), (Z.eqb_spec x (c + i)); simpl;
      try lia; try reflexivity.
    + apply Hrd; lia.
    + subst x. f_equal. lia.
Qed.

Lemma write_loop (rd : Z -> @memory T -> T) (c N : Z) (m : @memory T) :
  N <= INT_MAX ->
  (forall (m : @memory T) j v k,
     0 <= j < k -> k < N -> rd k (store m (c + j) v) = rd k m) ->
  forall fuel, 2 ^ 31 <= Z.of_nat fuel ->
  exists m',
    for_loop_state fuel (fun i => i <? N)
      (fun i m => store m (c + i) (rd i m)) 0 m = Some m'
    /\ (forall k, 0 <= k < N -> m' (c + k) = rd k m)
    /\ (forall x, ~ (c <= x < c + N) -> m' x = m x).
Proof.
  intros HN Hrd fuel Hfuel. unfold INT_MAX in HN.
  destruct (Z.le_gt_cases N 0) as [Hneg|Hpos].
  - exists m. split; [|split].
    + apply for_loop_state_exit; [lia|]. apply Z.ltb_ge. exact Hneg.
    + intros k Hk. lia.
    + reflexivity.
  - destruct (write_loop_from rd c N HN Hrd (Z.to_nat N) 0 fuel m)
      as [m' [Hrun Hm']]; try lia.
    exists m'. split; [exact Hrun|]. split.
    + intros k Hk. rewrite Hm'.
      destruct (Z.leb_spec (c + 0) (c + k)), (Z.ltb_spec (c + k) (c + N));
        simpl; try lia. f_equal. lia.
    + intros x Hx. rewrite Hm'.
      destruct (Z.leb_spec (c + 0) x), (Z.ltb_spec x (c + N));
        simpl; try reflexivity; lia.
Qed.

Lemma store_other (m : @memory T) addr v x : x <> addr -> store m addr v x = m x.
Proof. intros Hne. unfold store. destruct (Z.eqb_spec x addr); [contradiction|reflexivity]. Qed.

(** X22.  The array-array operations ([c[i] = a[i] op b[i]] for [i < N],
    [N] at most [INT_MAX]) return, leave every cell outside [c[0 .. N-1]]
    untouched and store [a[k] op b[k]] of the original contents in [c[k]],
    provided no cell written at an index is one read at a later index; this
    holds for separate arrays and when [c] is [a] or [b] itself.  For
    [N <= 0] nothing is written. *)
Theorem zip_LArray_elementwise (op : T -> T -> T) a b c N (m : @memory T) :
  N <= INT_MAX ->
  (forall j k, 0 <= j < k -> k < N -> c + j <> a + k /\ c + j <> b + k) ->
  exists fuel0, forall fuel, (fuel0 <= fuel)%nat ->
  exists m',
    zip_LArray op fuel a b c N m = Some m'
    /\ (forall k, 0 <= k < N -> m' (c + k) = op (m (a + k)) (m (b + k)))
    /\ (forall x, ~ (c <= x < c + N) -> m' x = m x).
Proof.
  intros HN Hahead. exists (Z.to_nat (2 ^ 31)). intros fuel Hfuel.
  unfold zip_LArray.
  apply (write_loop (fun k m => op (m (a + k)) (m (b + k))) c N m HN); [|lia].
  intros m0 j v k Hjk Hk. destruct (Hahead j k Hjk Hk) as [Ha Hb].
  rewrite !store_other by congruence. reflexivity.
Qed.

(** X23.  The array-constant operations ([c[i] = a[i] op b] for [i < N])
    return, leave every cell outside [c[0 .. N-1]] untouched and store
    [a[k] op b] of the original contents in [c[k]], provided no cell written
    at an index is one read at a later index. *)
Theorem scalar_LArray_elementwise (op : T -> T -> T) a (b : T) c N (m : @memory T) :
  N <= INT_MAX ->
  (forall j k, 0 <= j < k -> k < N -> c + j <> a + k) ->
  exists fuel0, forall fuel, (fuel0 <= fuel)%nat ->
  exists m',
    scalar_LArray op fuel a b c N m = Some m'
    /\ (forall k, 0 <= k < N -> m' (c + k) = op (m (a + k)) b)
    /\ (forall x, ~ (c <= x < c + N) -> m' x = m x).
Proof.
  intros HN Hahead. exists (Z.to_nat (2 ^ 31)). intros fuel Hfuel.
  unfold scalar_LArray.
  apply (write_loop (fun k m => op (m (a + k)) b) c N m HN); [|lia].
  intros m0 j v k Hjk Hk. pose proof (Hahead j k Hjk Hk) as Ha.
  rewrite !store_other by congruence. reflexivity.
Qed.

End LArrayProperties.

(** In-place use, as the comment on [mul_LArray] foresees: the three
    pointers may be one and the same array. *)
Lemma zip_LArray_elementwise_witness :
  exists fuel0, forall fuel, (fuel0 <= fuel)%nat ->
  exists m',
    zip_LArray Z.mul fuel 10 10 10 3 (fun x => x) = Some m'
    /\ (forall k, 0 <= k < 3 -> m' (10 + k) = (10 + k) * (10 + k))
    /\ (forall x, ~ (10 <= x < 10 + 3) -> m' x = x).
Proof.
  apply (zip_LArray_elementwise Z.mul 10 10 10 3 (fun x => x)).
  - unfold INT_MAX; lia.
  - intros j k Hjk Hk. lia.
Defined.

Lemma scalar_LArray_elementwise_witness :
  exists fuel0, forall fuel, (fuel0 <= fuel)%nat ->
  exists m',
    scalar_LArray Z.add fuel 10 7 10 3 (fun x => x) = Some m'
    /\ (forall k, 0 <= k < 3 -> m' (10 + k) = 10 + k + 7)
    /\ (forall x, ~ (10 <= x < 10 + 3) -> m' x = x).
Proof.
  apply (scalar_LArray_elementwise Z.add 10 7 10 3 (fun x => x)).
  - unfold INT_MAX; lia.
  - intros j k Hjk Hk. lia.
Defined.

(** When the output starts one cell after the input, each write is read
    back by the next iteration: the result is not element-wise. *)
Lemma scalar_LArray_overlap :
  exists m',
    scalar_LArray Z.add 5 10 1 11 3 (fun _ => 0) = Some m'
    /\ m' 11 = 1 /\ m' 12 = 2 /\ m' 13 = 3.
Proof. eexists. split; [reflexivity|]. repeat split. Qed.
